(** * qr-trasmitter: chunked file transfer over a visual channel

    A shallow embedding of the sender ([boardcaster.py]) and of the
    receiver's assembler ([receiver.py]), with the properties of the
    transfer protocol proved about it.

    Conventions of the embedding
    - [bytes] objects are [list byte]; Python [str] is [string].
    - the dictionary [chunks] is a [gmap Z string] from part number to the
      base-64 text of the part; sets of part numbers are [gset Z].
    - [range(1, n + 1)] is [seqZ 1 n] (empty when [n <= 0]).
    - clock readings ([time.time()]) are integers, in seconds.
    - the files the receiver touches live in a [disk]: the binary files by
      name, and the content of [missing_parts.json] as a record.  Every file
      of the disk can be opened, written and removed: the handlers for an
      [open] or a write that fails ([receiver.py] 74-75 and 100-101, and
      291-293 as far as it serves them) are outside the model, which follows
      the exceptions that the data raise (a missing key, text that does not
      decode).
    - Ctrl+C is taken where the main loop waits, at the poll of the result
      queue.
    - QR rendering, screen grabbing and symbol decoding are outside the
      model: the sender's output is the sequence of payload dictionaries it
      renders, the receiver's input is what the result queue delivers. *)

From Stdlib Require Import ZArith NArith Lia Strings.Byte Ascii String List.
From stdpp Require Import gmap strings list fin_maps sorting.

Local Open Scope Z_scope.

Abbreviation bytes := (list byte).

(** ** base64.b64encode / base64.b64decode

    The standard alphabet with [=] padding (RFC 4648), as Python's
    [base64] module produces it.  [b64decode] is the strict reading of that
    format: it returns [None] where Python raises [binascii.Error].  Python
    is more lenient on text that no encoder produces (it skips characters
    outside the alphabet); on the text [b64encode] produces, and on all text
    the strict reading accepts, both give the same bytes. *)
Module Base64.

Definition alphabet : list ascii :=
  list_ascii_of_string
    "ABCDEFGHIJKLMNOPQRSTUVWXYZabcdefghijklmnopqrstuvwxyz0123456789+/".

Definition pad : ascii := "="%char.

Definition sextet_char (n : N) : ascii := nth (N.to_nat n) alphabet pad.

Fixpoint index_from (c : ascii) (l : list ascii) (i : N) : option N :=
  match l with
  | [] => None
  | x :: r => if Ascii.eqb c x then Some i else index_from c r (N.succ i)
  end.

Definition char_sextet (c : ascii) : option N := index_from c alphabet 0%N.

Definition byte_of_N (n : N) : byte :=
  match Byte.of_N (n mod 256)%N with Some b => b | None => x00 end.

(** Three input bytes give four characters; a tail of one or two bytes is
    padded with [=]. *)
Fixpoint encode_groups (bs : bytes) : list ascii :=
  match bs with
  | [] => []
  | [a] =>
      let a := Byte.to_N a in
      [sextet_char (a / 4); sextet_char ((a mod 4) * 16); pad; pad]%N
  | [a; b] =>
      let a := Byte.to_N a in
      let b := Byte.to_N b in
      [sextet_char (a / 4); sextet_char ((a mod 4) * 16 + b / 16);
       sextet_char ((b mod 16) * 4); pad]%N
  | a :: b :: c :: rest =>
      let a := Byte.to_N a in
      let b := Byte.to_N b in
      let c := Byte.to_N c in
      [sextet_char (a / 4); sextet_char ((a mod 4) * 16 + b / 16);
       sextet_char ((b mod 16) * 4 + c / 64); sextet_char (c mod 64)]%N
      ++ encode_groups rest
  end.

Fixpoint decode_groups (cs : list ascii) : option bytes :=
  match cs with
  | [] => Some []
  | c0 :: c1 :: c2 :: c3 :: rest =>
      match char_sextet c0, char_sextet c1 with
      | Some i0, Some i1 =>
          let b0 := byte_of_N (i0 * 4 + i1 / 16) in
          if Ascii.eqb c3 pad then
            match rest with
            | [] =>
                if Ascii.eqb c2 pad then Some [b0]
                else
                  match char_sextet c2 with
                  | Some i2 => Some [b0; byte_of_N ((i1 mod 16) * 16 + i2 / 4)]
                  | None => None
                  end
            | _ :: _ => None
            end
          else
            match char_sextet c2, char_sextet c3, decode_groups rest with
            | Some i2, Some i3, Some tl =>
                Some (b0 :: byte_of_N ((i1 mod 16) * 16 + i2 / 4)
                         :: byte_of_N ((i2 mod 4) * 64 + i3) :: tl)
            | _, _, _ => None
            end
      | _, _ => None
      end
  | _ => None
  end.

Definition b64encode (bs : bytes) : string :=
  string_of_list_ascii (encode_groups bs).

Definition b64decode (s : string) : option bytes :=
  decode_groups (list_ascii_of_string s).

End Base64.

Export Base64.

(** ** The sender: boardcaster.py *)

Definition CHUNK_SIZE_BYTES : nat := 2048.

(** The loop of [get_file_chunks]: [f.read(chunk_size)] takes the next
    [chunk_size] bytes (fewer at the end of the file), and an empty read ends
    the generator.  Each round with a non-empty read consumes at least one
    byte, so [length file] rounds are enough. *)
Fixpoint read_loop (rounds : nat) (chunk_size : nat) (rest : bytes)
  : list bytes :=
  match rounds with
  | O => []
  | S rounds' =>
      match take chunk_size rest with
      | [] => []
      | chunk => chunk :: read_loop rounds' chunk_size (drop chunk_size rest)
      end
  end.

Definition get_file_chunks (chunk_size : nat) (file : bytes) : list bytes :=
  read_loop (length file) chunk_size file.

(** [math.ceil(file_size / chunk_size)] for a size and a positive chunk
    size.  (Python divides in floating point, which is exact for the sizes of
    files: below 2^53 bytes.  With a chunk size of 0 Python raises and nothing
    is sent; here the total is 0 and there are no chunks.) *)
Definition ceil_div (a b : Z) : Z := - ((- a) / b).

(** The payload dictionary of one QR symbol: [{"p", "t", "f", "d"}]. *)
Record envelope := Envelope {
  env_p : Z;        (* part number *)
  env_t : Z;        (* total parts *)
  env_f : string;   (* file name *)
  env_d : string    (* base-64 text of the chunk *)
}.

(** Python truthiness of [remediation_parts]: [None] and the empty set are
    both false. *)
Definition truthy (remediation_parts : option (gset Z)) : bool :=
  match remediation_parts with
  | Some parts => negb (bool_decide (parts = ∅))
  | None => false
  end.

(** [remediation_parts and part_number not in remediation_parts]: the
    condition under which the loop [continue]s without rendering. *)
Definition skipped (remediation_parts : option (gset Z)) (part_number : Z)
  : bool :=
  truthy remediation_parts &&
  match remediation_parts with
  | Some parts => negb (bool_decide (part_number ∈ parts))
  | None => false
  end.

(** The body of the [for] loop of [generation_thread], over
    [enumerate(get_file_chunks(file_path), 1)]: the envelopes put on the image
    queue, in order. *)
Fixpoint broadcast (remediation_parts : option (gset Z)) (total_parts : Z)
    (file_name : string) (part_number : Z) (chunks : list bytes)
  : list envelope :=
  match chunks with
  | [] => []
  | chunk_data :: more =>
      let rest :=
        broadcast remediation_parts total_parts file_name (part_number + 1) more in
      if skipped remediation_parts part_number then rest
      else Envelope part_number total_parts file_name (b64encode chunk_data) :: rest
  end.

Definition generation_thread (chunk_size : nat) (file_name : string)
    (file : bytes) (remediation_parts : option (gset Z)) : list envelope :=
  let file_size := Z.of_nat (length file) in
  let total_parts := ceil_div file_size (Z.of_nat chunk_size) in
  broadcast remediation_parts total_parts file_name 1
    (get_file_chunks chunk_size file).

(** [main]: with [--remediate], the manifest's [missing] list becomes the
    selector set, and an empty one is refused before anything is sent. *)
Definition sender_main (chunk_size : nat) (file_name : string) (file : bytes)
    (remediate : option (list Z)) : list envelope :=
  match remediate with
  | Some missing =>
      let remediation_parts : gset Z := list_to_set missing in
      if bool_decide (remediation_parts = ∅) then []
      else generation_thread chunk_size file_name file (Some remediation_parts)
  | None => generation_thread chunk_size file_name file None
  end.

(** ** The receiver: receiver.py *)

Definition SCAN_TIMEOUT_SECONDS : Z := 5.

#[global] Instance byte_eq_decision : EqDecision byte := Byte.byte_eq_dec.

(** [b'\0' * n] *)
Definition zeros (n : nat) : bytes := replicate n x00.

(** The record [json.dump] writes to [missing_parts.json]. *)
Record manifest := Manifest {
  filename : string;
  manifest_total_parts : Z;
  missing : list Z
}.

Record disk := Disk {
  binary_files : gmap string bytes;
  missing_parts_json : option manifest
}.

(** What a [with open(..., 'wb')] block leaves in its file: everything, or
    what had been written when an exception left the block. *)
Inductive written :=
  | Done (out : bytes)
  | Raised (out : bytes).

Definition output (w : written) : bytes :=
  match w with Done out | Raised out => out end.

Definition write_then (data : bytes) (w : written) : written :=
  match w with
  | Done out => Done (data ++ out)
  | Raised out => Raised (data ++ out)
  end.

(** [sorted(list(all_parts - found_parts))] *)
Definition missing_parts (chunks : gmap Z string) (total_parts : Z) : list Z :=
  let all_parts : gset Z := list_to_set (seqZ 1 total_parts) in
  let found_parts : gset Z := dom chunks in
  merge_sort Z.le (elements (all_parts ∖ found_parts)).

(** The loop writing the draft: parts in order, gaps filled with null bytes,
    except a gap at the last part. *)
Fixpoint write_draft (chunk_size : nat) (chunks : gmap Z string)
    (total_parts : Z) (parts : list Z) : written :=
  match parts with
  | [] => Done []
  | i :: more =>
      match chunks !! i with
      | Some base64_data =>
          match b64decode base64_data with
          | Some binary_chunk =>
              write_then binary_chunk
                (write_draft chunk_size chunks total_parts more)
          | None => Raised []
          end
      | None =>
          if bool_decide (i ≠ total_parts)
          then write_then (zeros chunk_size)
                 (write_draft chunk_size chunks total_parts more)
          else write_draft chunk_size chunks total_parts more
      end
  end.

Definition draft_name (output_filename : string) : string :=
  ("DRAFT_" ++ output_filename)%string.

(** [save_draft_and_exit]: nothing is written unless both the total and the
    file name are bound and a part is missing; then the manifest and the
    draft are written (both files taken to be writable). *)
Definition save_draft_and_exit (chunk_size : nat) (chunks : gmap Z string)
    (total_parts : option Z) (output_filename : option string) (dk : disk)
  : disk :=
  match total_parts, output_filename with
  | Some total_parts, Some output_filename =>
      match missing_parts chunks total_parts with
      | [] => dk
      | missing_parts =>
          let draft :=
            write_draft chunk_size chunks total_parts (seqZ 1 total_parts) in
          Disk (<[draft_name output_filename := output draft]> (binary_files dk))
               (Some (Manifest output_filename total_parts missing_parts))
      end
  | _, _ => dk
  end.

(** The assembler's variables. *)
Record session := Session {
  chunks : gmap Z string;
  total_parts : option Z;
  output_filename : option string;
  last_part_found_time : Z
}.

(** What [json.loads] makes of a decoded symbol, as far as the assembler
    looks at it: anything but an object cannot be subscripted with a key
    ([TypeError]); of an object only the keys [p], [t], [f], [d] are read,
    each present or not.  Present values are taken at the types the sender
    writes (integers for [p] and [t], strings for [f] and [d]). *)
Inductive json_payload :=
  | NotAnObject
  | Object (p : option Z) (t : option Z) (f : option string) (d : option string).

(** One entry of the result queue, through [.decode('utf-8')] and
    [json.loads].  [json.loads] rejects text that is not JSON with
    [json.JSONDecodeError]; on text it cannot hold it raises something else
    ([ValueError] for a number of more than 4300 digits, [RecursionError]
    for brackets nested too deep), which the handler of the inner [try]
    block does not name. *)
Inductive item :=
  | NotUtf8                      (* UnicodeDecodeError *)
  | NotJson                      (* json.JSONDecodeError *)
  | LoadsRaised                  (* ValueError, RecursionError *)
  | Json (payload : json_payload).

Definition payload_of (e : envelope) : json_payload :=
  Object (Some (env_p e)) (Some (env_t e)) (Some (env_f e)) (Some (env_d e)).

Definition of_envelope (e : envelope) : item := Json (payload_of e).

(** Loading an existing draft: one read of [chunk_size] bytes per part
    number, stopping at the end of the file. *)
Fixpoint load_draft (chunk_size : nat) (rest : bytes) (parts : list Z)
    (chunks : gmap Z string) : gmap Z string :=
  match parts with
  | [] => chunks
  | i :: more =>
      match take chunk_size rest with
      | [] => chunks
      | chunk =>
          load_draft chunk_size (drop chunk_size rest) more
            (if bool_decide (chunk ≠ zeros chunk_size)
                && bool_decide (chunk ≠ zeros (length chunk))
             then match chunks !! i with
                  | None => <[i := b64encode chunk]> chunks
                  | Some _ => chunks
                  end
             else chunks)
      end
  end.

(** The inner [try] block of the main loop on a parsed payload.  A [KeyError]
    or [TypeError] leaves the block where it is raised; what was assigned
    before stays assigned. *)
Definition on_payload (chunk_size : nat) (dk : disk) (s : session)
    (payload : json_payload) (now : Z) : session :=
  match payload with
  | NotAnObject => s
  | Object p t f d =>
      match p, d with
      | Some part_num, Some base64_data =>
          match chunks s !! part_num with
          | Some _ => s
          | None =>
              match total_parts s with
              | Some _ =>
                  Session (<[part_num := base64_data]> (chunks s))
                          (total_parts s) (output_filename s) now
              | None =>
                  match t with
                  | None => s
                  | Some total =>
                      match f with
                      | None =>
                          Session (chunks s) (Some total) (output_filename s)
                                  (last_part_found_time s)
                      | Some name =>
                          let loaded :=
                            match binary_files dk !! draft_name name with
                            | Some draft =>
                                load_draft chunk_size draft (seqZ 1 total) (chunks s)
                            | None => chunks s
                            end in
                          Session (<[part_num := base64_data]> loaded)
                                  (Some total) (Some name) now
                      end
                  end
              end
          end
      | _, _ => s
      end
  end.

(** The final write: [chunks[i]] for every part in order; a missing key or
    text that does not decode raises. *)
Fixpoint write_restored (chunks : gmap Z string) (parts : list Z) : written :=
  match parts with
  | [] => Done []
  | i :: more =>
      match chunks !! i ≫= b64decode with
      | Some binary_chunk => write_then binary_chunk (write_restored chunks more)
      | None => Raised []
      end
  end.

(** [f"RESTORED_{output_filename}"]; an unbound name prints as [None]. *)
Definition format_name (output_filename : option string) : string :=
  match output_filename with Some name => name | None => "None"%string end.

Definition restored_name (output_filename : option string) : string :=
  ("RESTORED_" ++ format_name output_filename)%string.

Inductive cause := ScanTimeout | CtrlC.

Inductive outcome :=
  | Continue (s : session)                     (* next round of the loop *)
  | Interrupted (c : cause) (s : session) (dk : disk)
                                               (* KeyboardInterrupt: draft saved *)
  | Completed (dk : disk)                      (* SUCCESS, break *)
  | WriteFailed (dk : disk)                    (* FATAL ERROR, break *)
  | Crashed (s : session).                     (* an exception left main_scanner *)

(** The completion check at the end of a round.  The restored file is taken
    to be writable and the draft files removable, so that the handler at
    291-293 is reached from the loop of 278-279 only: when [chunks[i]] is
    missing or does not decode. *)
Definition check_completion (dk : disk) (s : session) : outcome :=
  match total_parts s with
  | Some total =>
      if bool_decide (Z.of_nat (size (chunks s)) = total) then
        match write_restored (chunks s) (seqZ 1 total) with
        | Done out =>
            Completed
              (Disk (delete (draft_name (format_name (output_filename s)))
                       (<[restored_name (output_filename s) := out]>
                          (binary_files dk)))
                    None)
        | Raised out =>
            WriteFailed
              (Disk (<[restored_name (output_filename s) := out]> (binary_files dk))
                    (missing_parts_json dk))
        end
      else Continue s
  | None => Continue s
  end.

(** The timeout test at the head of a round. *)
Definition timed_out (s : session) (now : Z) : bool :=
  match total_parts s with
  | Some total =>
      bool_decide (Z.of_nat (size (chunks s)) < total)
      && bool_decide (now - last_part_found_time s > SCAN_TIMEOUT_SECONDS)
  | None => false
  end.

(** What [result_queue.get(timeout=0.05)] brings in one round: nothing, an
    entry (with the clock reading taken if it is accepted), or the user's
    Ctrl+C. *)
Inductive poll :=
  | Empty
  | Got (it : item) (now : Z)
  | KeyboardInterrupt.

(** One round of [while True]. *)
Definition round (chunk_size : nat) (dk : disk) (s : session) (now : Z)
    (ev : poll) : outcome :=
  if timed_out s now then
    Interrupted ScanTimeout s
      (save_draft_and_exit chunk_size (chunks s) (total_parts s)
         (output_filename s) dk)
  else
    match ev with
    | Empty => Continue s
    | KeyboardInterrupt =>
        Interrupted CtrlC s
          (save_draft_and_exit chunk_size (chunks s) (total_parts s)
             (output_filename s) dk)
    | Got NotUtf8 _ => Crashed s
    | Got LoadsRaised _ => Crashed s
    | Got NotJson _ => check_completion dk s
    | Got (Json payload) now' =>
        check_completion dk (on_payload chunk_size dk s payload now')
    end.

Fixpoint main_loop (chunk_size : nat) (dk : disk) (s : session)
    (rounds : list (Z * poll)) : outcome :=
  match rounds with
  | [] => Continue s
  | (now, ev) :: more =>
      match round chunk_size dk s now ev with
      | Continue s' => main_loop chunk_size dk s' more
      | stop => stop
      end
  end.

Definition main_scanner (chunk_size : nat) (dk : disk) (start : Z)
    (rounds : list (Z * poll)) : outcome :=
  main_loop chunk_size dk (Session ∅ None None start) rounds.

(** ** Vocabulary of the statements *)

(** The dictionary holding the given envelopes, each under its part number
    (the first envelope of a part number is the one kept). *)
Definition collect (envelopes : list envelope) : gmap Z string :=
  list_to_map ((λ e, (env_p e, env_d e)) <$> envelopes).

(** The part numbers of the range [1..total_parts]. *)
Definition part_range (total_parts : Z) : gset Z :=
  list_to_set (seqZ 1 total_parts).

(** The timeout test of a round fires: the round ends in the draft being
    saved for a scan timeout. *)
Definition stall_fires (chunk_size : nat) (dk : disk) (s : session) (now : Z)
    (ev : poll) : Prop :=
  ∃ dk', round chunk_size dk s now ev = Interrupted ScanTimeout s dk'.

(** A round that delivers an envelope for a part number the session already
    holds. *)
Definition already_seen (s : session) (r : Z * poll) : Prop :=
  match r.2 with
  | Got (Json (Object (Some part_num) _ _ (Some _))) _ =>
      is_Some (chunks s !! part_num)
  | _ => False
  end.

(** The check reading of a round comes later than the timeout after
    [last]. *)
Definition late (last : Z) (r : Z * poll) : Prop :=
  r.1 - last > SCAN_TIMEOUT_SECONDS.

#[global] Instance late_dec last r : Decision (late last r).
Proof. unfold late. apply _. Defined.

(** What the draft holds for part [i]: the decoded payload of a part that
    was received, [chunk_size] null bytes for a gap before the last part,
    nothing for a gap at the last part. *)
Definition draft_region (chunk_size : nat) (chunks : gmap Z string)
    (total_parts : Z) (i : Z) : bytes :=
  match chunks !! i with
  | Some base64_data => default [] (b64decode base64_data)
  | None => if bool_decide (i ≠ total_parts) then zeros chunk_size else []
  end.

(** The bytes of a draft at the place of part [i]: the [i]-th read of
    [chunk_size] bytes. *)
Definition stride (chunk_size : nat) (draft : bytes) (i : Z) : bytes :=
  take chunk_size (drop (Z.to_nat (i - 1) * chunk_size) draft).

(** A region of a draft is taken for a received part when it is not empty
    and not all null bytes. *)
Definition trusted (region : bytes) : Prop :=
  region ≠ [] ∧ region ≠ zeros (length region).

#[global] Instance trusted_dec region : Decision (trusted region).
Proof. unfold trusted. apply _. Defined.

(** The restored file a run leaves, if it completed. *)
Definition restored_file (o : outcome) (file_name : string) : option bytes :=
  match o with
  | Completed dk => binary_files dk !! restored_name (Some file_name)
  | _ => None
  end.

(** One round per envelope: the envelope is on the queue, [clock] gives the
    round's two clock readings (at the timeout test, at acceptance). *)
Definition deliver (clock : list (Z * Z)) (envelopes : list envelope)
  : list (Z * poll) :=
  zip_with (λ c e, (c.1, Got (of_envelope e) c.2)) clock envelopes.

(** No timeout test comes later than the timeout after the acceptance before
    it. *)
Fixpoint timely (last : Z) (clock : list (Z * Z)) : Prop :=
  match clock with
  | [] => True
  | (now, now') :: more =>
      now - last ≤ SCAN_TIMEOUT_SECONDS ∧ timely now' more
  end.

(** [chunks[part_num] = base64_data] for one envelope. *)
Definition store (chunks : gmap Z string) (e : envelope) : gmap Z string :=
  <[env_p e := env_d e]> chunks.

(** A session of one file: not yet bound, or bound to the file's total and
    name. *)
Definition this_session (total : Z) (name : string) (s : session) : Prop :=
  total_parts s = None
  ∨ (total_parts s = Some total ∧ output_filename s = Some name).

(** ** The presentation side of the sender *)

(** [display_total] of [main]:
    [len(remediation_parts) if remediation_parts else total_parts]. *)
Definition display_total (chunk_size : nat) (file : bytes)
    (remediate : option (list Z)) : Z :=
  let total_parts := ceil_div (Z.of_nat (length file)) (Z.of_nat chunk_size) in
  match remediate with
  | Some missing =>
      let remediation_parts : gset Z := list_to_set missing in
      if truthy (Some remediation_parts)
      then Z.of_nat (size remediation_parts) else total_parts
  | None => total_parts
  end.







(** ** More vocabulary *)

(** The session an outcome carries, if the loop did not end in a write. *)
Definition session_of (o : outcome) : option session :=
  match o with
  | Continue s | Interrupted _ s _ | Crashed s => Some s
  | Completed _ | WriteFailed _ => None
  end.

(** A round that brings nothing of the protocol: no entry, text that
    [json.loads] rejects with [json.JSONDecodeError], JSON that is not an
    object, or an object without [p], [d] or [t]. *)
Definition foreign (r : Z * poll) : Prop :=
  match r.2 with
  | Empty | Got NotJson _ | Got (Json NotAnObject) _ => True
  | Got (Json (Object p t f d)) _ => p = None ∨ d = None ∨ t = None
  | Got NotUtf8 _ | Got LoadsRaised _ | KeyboardInterrupt => False
  end.

(** A round whose entry, if it is an object, carries only part numbers of
    [1..total], the total [total], and text that decodes. *)
Definition well_formed (total : Z) (r : Z * poll) : Prop :=
  match r.2 with
  | Got (Json (Object p t f d)) _ =>
      (∀ k, p = Some k → 1 ≤ k ≤ total)
      ∧ (∀ t', t = Some t' → t' = total)
      ∧ (∀ d', d = Some d' → is_Some (b64decode d'))
  | _ => True
  end.

(** A session whose total, if bound, is [total], whose part numbers lie in
    [1..total] and whose payloads all decode. *)
Definition conforming (total : Z) (s : session) : Prop :=
  (∀ t, total_parts s = Some t → t = total)
  ∧ dom (chunks s) ⊆ part_range total
  ∧ (∀ i d, chunks s !! i = Some d → is_Some (b64decode d)).


(** The draft of the file, if the disk holds one, yields for every part that
    is loaded from it the payload of that part's envelope. *)
Definition draft_agrees (chunk_size : nat) (dk : disk) (total : Z)
    (name : string) (envelopes : list envelope) : Prop :=
  ∀ draft, binary_files dk !! draft_name name = Some draft →
    load_draft chunk_size draft (seqZ 1 total) ∅ ⊆ collect envelopes.

(** Every timeout test of a delivery comes within the timeout of the start of
    the scan and of every reading taken at an acceptance: whichever envelopes
    are accepted, no test comes late. *)
Definition prompt (start : Z) (clock : list (Z * Z)) : Prop :=
  Forall (λ c, c.1 - start ≤ SCAN_TIMEOUT_SECONDS
               ∧ Forall (λ c', c.1 - c'.2 ≤ SCAN_TIMEOUT_SECONDS) clock)
         clock.

(** A session on its way through the envelopes of a file: nothing bound and
    nothing held yet, or bound to the file and holding fewer than [total]
    payloads, each one that of its part's envelope. *)
Definition in_progress (total : Z) (name : string) (envelopes : list envelope)
    (s : session) : Prop :=
  (total_parts s = None ∧ chunks s = ∅)
  ∨ (total_parts s = Some total ∧ output_filename s = Some name
     ∧ chunks s ⊆ collect envelopes ∧ Z.of_nat (size (chunks s)) < total).

(** * Properties *)

(** ** Base 64 *)
Module Base64Facts.

Ltac div_lia := zify; Z.to_euclidean_division_equations; lia.

Lemma sextet_char_spec (n : N) :
  (n < 64)%N →
  char_sextet (sextet_char n) = Some n ∧ Ascii.eqb (sextet_char n) pad = false.
Proof.
  intros Hn.
  assert (Hall : forallb
            (λ k, match char_sextet (sextet_char (N.of_nat k)) with
                  | Some m => N.eqb m (N.of_nat k)
                  | None => false
                  end && negb (Ascii.eqb (sextet_char (N.of_nat k)) pad))
            (seq 0 64) = true) by (vm_compute; reflexivity).
  rewrite forallb_forall in Hall.
  specialize (Hall (N.to_nat n)).
  rewrite N2Nat.id in Hall.
  assert (Hin : In (N.to_nat n) (seq 0 64)) by (apply in_seq; lia).
  apply Hall in Hin. apply andb_prop in Hin as [H1 H2].
  destruct (char_sextet (sextet_char n)) as [m|]; [|discriminate].
  apply N.eqb_eq in H1. subst m. split; [reflexivity|].
  by destruct (Ascii.eqb (sextet_char n) pad).
Qed.

Lemma char_sextet_char (n : N) : (n < 64)%N → char_sextet (sextet_char n) = Some n.
Proof. intros. by apply sextet_char_spec. Qed.

Lemma sextet_char_not_pad (n : N) :
  (n < 64)%N → Ascii.eqb (sextet_char n) pad = false.
Proof. intros. by apply sextet_char_spec. Qed.

Lemma byte_of_N_to_N (n : N) (b : byte) : n = Byte.to_N b → byte_of_N n = b.
Proof.
  intros ->. unfold byte_of_N.
  pose proof (Byte.to_N_bounded b).
  rewrite N.mod_small by lia. by rewrite Byte.of_to_N.
Qed.

Lemma pad_eqb : Ascii.eqb pad pad = true.
Proof. reflexivity. Qed.

(** The sextets of a group of bytes are below 64, and the bytes are
    recovered from them. *)
Lemma s0_lt (a : N) : (a < 256 → a / 4 < 64)%N.
Proof. intros. div_lia. Qed.
Lemma s1_lt (a b : N) : (a < 256 → b < 256 → (a mod 4) * 16 + b / 16 < 64)%N.
Proof. intros. div_lia. Qed.
Lemma s1_lt' (a : N) : (a < 256 → (a mod 4) * 16 < 64)%N.
Proof. intros. div_lia. Qed.
Lemma s2_lt (b c : N) : (b < 256 → c < 256 → (b mod 16) * 4 + c / 64 < 64)%N.
Proof. intros. div_lia. Qed.
Lemma s2_lt' (b : N) : (b < 256 → (b mod 16) * 4 < 64)%N.
Proof. intros. div_lia. Qed.
Lemma s3_lt (c : N) : (c mod 64 < 64)%N.
Proof. div_lia. Qed.
Lemma b0_eq (a b : N) :
  (a < 256 → b < 256 → a / 4 * 4 + ((a mod 4) * 16 + b / 16) / 16 = a)%N.
Proof. intros. div_lia. Qed.
Lemma b0_eq' (a : N) : (a < 256 → a / 4 * 4 + ((a mod 4) * 16) / 16 = a)%N.
Proof. intros. div_lia. Qed.
Lemma b1_eq (a b c : N) :
  (a < 256 → b < 256 → c < 256 →
   (((a mod 4) * 16 + b / 16) mod 16) * 16 + ((b mod 16) * 4 + c / 64) / 4 = b)%N.
Proof. intros. div_lia. Qed.
Lemma b1_eq' (a b : N) :
  (a < 256 → b < 256 →
   (((a mod 4) * 16 + b / 16) mod 16) * 16 + ((b mod 16) * 4) / 4 = b)%N.
Proof. intros. div_lia. Qed.
Lemma b2_eq (b c : N) :
  (b < 256 → c < 256 →
   (((b mod 16) * 4 + c / 64) mod 4) * 64 + c mod 64 = c)%N.
Proof. intros. div_lia. Qed.

Lemma to_N_lt (x : byte) : (Byte.to_N x < 256)%N.
Proof. pose proof (Byte.to_N_bounded x). lia. Qed.

Lemma decode_encode_groups (bs : bytes) :
  decode_groups (encode_groups bs) = Some bs.
Proof.
  remember (length bs) as n eqn:Hn. revert bs Hn.
  induction n as [n IH] using lt_wf_ind.
  intros [|x [|y [|z rest]]] Hn; [reflexivity| | |].
  - pose proof (to_N_lt x) as Hx.
    cbn [encode_groups decode_groups].
    rewrite (char_sextet_char _ (s0_lt _ Hx)), (char_sextet_char _ (s1_lt' _ Hx)).
    rewrite !pad_eqb. f_equal. f_equal.
    by apply byte_of_N_to_N, b0_eq'.
  - pose proof (to_N_lt x) as Hx. pose proof (to_N_lt y) as Hy.
    cbn [encode_groups decode_groups].
    rewrite (char_sextet_char _ (s0_lt _ Hx)), (char_sextet_char _ (s1_lt _ _ Hx Hy)).
    rewrite pad_eqb, (sextet_char_not_pad _ (s2_lt' _ Hy)).
    rewrite (char_sextet_char _ (s2_lt' _ Hy)).
    f_equal. f_equal; [|f_equal]; apply byte_of_N_to_N.
    + by apply b0_eq.
    + by apply b1_eq'.
  - pose proof (to_N_lt x) as Hx. pose proof (to_N_lt y) as Hy.
    pose proof (to_N_lt z) as Hz.
    cbn [encode_groups decode_groups app].
    rewrite (char_sextet_char _ (s0_lt _ Hx)), (char_sextet_char _ (s1_lt _ _ Hx Hy)).
    rewrite (sextet_char_not_pad _ (s3_lt (Byte.to_N z))).
    rewrite (char_sextet_char _ (s2_lt _ _ Hy Hz)), (char_sextet_char _ (s3_lt _)).
    rewrite (IH (length rest)); [| simpl in Hn; lia | reflexivity].
    f_equal. f_equal; [|f_equal; [|f_equal]]; apply byte_of_N_to_N.
    + by apply b0_eq.
    + by apply b1_eq.
    + by apply b2_eq.
Qed.

End Base64Facts.

(** Decoding undoes encoding. *)
Lemma b64decode_b64encode (bs : bytes) : b64decode (b64encode bs) = Some bs.
Proof.
  unfold b64decode, b64encode.
  rewrite list_ascii_of_string_of_list_ascii.
  apply Base64Facts.decode_encode_groups.
Qed.

Example b64encode_Man :
  b64encode ["M"; "a"; "n"]%byte = "TWFu"%string
  ∧ b64encode ["M"; "a"]%byte = "TWE="%string
  ∧ b64encode ["M"]%byte = "TQ=="%string.
Proof. repeat split; reflexivity. Qed.

(** ** The chunk source *)

Lemma take_eq_nil {A} (n : nat) (l : list A) :
  take n l = [] → n = 0%nat ∨ l = [].
Proof. destruct n, l; naive_solver. Qed.

(** Part [i] (counting from 0) of a file is the slice of [chunk_size] bytes
    at offset [i * chunk_size], for as long as that offset is inside the
    file. *)
Lemma read_loop_lookup (chunk_size rounds : nat) (rest : bytes) (i : nat) :
  (0 < chunk_size)%nat → (length rest ≤ rounds)%nat →
  read_loop rounds chunk_size rest !! i =
  if decide (i * chunk_size < length rest)%nat
  then Some (take chunk_size (drop (i * chunk_size) rest)) else None.
Proof.
  intros Hcs. revert rest i.
  induction rounds as [|rounds IH]; intros rest i Hlen.
  - destruct rest; [|simpl in Hlen; lia].
    by rewrite decide_False by (simpl; lia).
  - simpl. destruct (take chunk_size rest) as [|b chunk] eqn:Htake.
    + apply take_eq_nil in Htake as [?| ->]; [lia|].
      by rewrite decide_False by (simpl; lia).
    + assert (0 < length rest)%nat by (destruct rest; [by destruct chunk_size | simpl; lia]).
      destruct i as [|i]; simpl.
      * rewrite decide_True by lia. by rewrite drop_0, Htake.
      * rewrite IH by (rewrite length_drop; lia).
        rewrite length_drop, drop_drop.
        repeat case_decide; try lia; done.
Qed.

Lemma get_file_chunks_lookup (chunk_size : nat) (file : bytes) (i : nat) :
  (0 < chunk_size)%nat →
  get_file_chunks chunk_size file !! i =
  if decide (i * chunk_size < length file)%nat
  then Some (take chunk_size (drop (i * chunk_size) file)) else None.
Proof. intros. by apply read_loop_lookup. Qed.

Lemma read_loop_concat (chunk_size rounds : nat) (rest : bytes) :
  (0 < chunk_size)%nat → (length rest ≤ rounds)%nat →
  concat (read_loop rounds chunk_size rest) = rest.
Proof.
  intros Hcs. revert rest.
  induction rounds as [|rounds IH]; intros rest Hlen.
  - by destruct rest; [|simpl in Hlen; lia].
  - simpl. destruct (take chunk_size rest) as [|b chunk] eqn:Htake.
    + by apply take_eq_nil in Htake as [?| ->]; [lia|].
    + assert (0 < length rest)%nat by (destruct rest; [by destruct chunk_size | simpl; lia]).
      simpl. rewrite IH by (rewrite length_drop; lia).
      rewrite app_comm_cons, <- Htake. apply take_drop.
Qed.

Lemma get_file_chunks_concat (chunk_size : nat) (file : bytes) :
  (0 < chunk_size)%nat → concat (get_file_chunks chunk_size file) = file.
Proof. intros. by apply read_loop_concat. Qed.

Lemma ceil_div_spec (a b n : Z) :
  0 < b → (ceil_div a b = n ↔ (n - 1) * b < a ≤ n * b).
Proof.
  intros Hb. unfold ceil_div.
  pose proof (Z.div_mod (- a) b ltac:(lia)).
  pose proof (Z.mod_pos_bound (- a) b Hb).
  split; [intros <-; nia | intros; nia].
Qed.

Lemma get_file_chunks_length (chunk_size : nat) (file : bytes) :
  (0 < chunk_size)%nat →
  Z.of_nat (length (get_file_chunks chunk_size file)) =
  ceil_div (Z.of_nat (length file)) (Z.of_nat chunk_size).
Proof.
  intros Hcs. symmetry. apply ceil_div_spec; [lia|].
  set (parts := get_file_chunks chunk_size file).
  destruct (length parts) as [|n] eqn:Hn.
  - pose proof (get_file_chunks_lookup chunk_size file 0 Hcs) as H0.
    fold parts in H0. rewrite lookup_ge_None_2 in H0 by lia.
    case_decide; [done | lia].
  - pose proof (get_file_chunks_lookup chunk_size file n Hcs) as H1.
    pose proof (get_file_chunks_lookup chunk_size file (S n) Hcs) as H2.
    fold parts in H1, H2.
    rewrite lookup_ge_None_2 in H2 by lia.
    destruct (lookup_lt_is_Some_2 parts n ltac:(lia)) as [c Hc].
    rewrite Hc in H1.
    repeat case_decide; try done; nia.
Qed.

(** ** The transmission loop *)

Lemma skipped_None (part_number : Z) : skipped None part_number = false.
Proof. reflexivity. Qed.

Lemma skipped_Some (parts : gset Z) (part_number : Z) :
  parts ≠ ∅ →
  skipped (Some parts) part_number = false ↔ part_number ∈ parts.
Proof.
  intros Hne. unfold skipped, truthy.
  rewrite bool_decide_eq_false_2 by done. simpl.
  destruct (bool_decide_reflect (part_number ∈ parts)); naive_solver.
Qed.

(** The part numbers rendered are the numbers of the chunks, in order, less
    the skipped ones. *)
Lemma broadcast_parts remediation_parts total file_name k (parts : list bytes) :
  env_p <$> broadcast remediation_parts total file_name k parts =
  filter (λ j, skipped remediation_parts j = false)
         (seqZ k (Z.of_nat (length parts))).
Proof.
  revert k. induction parts as [|chunk parts IH]; intros k; [done|].
  rewrite seqZ_cons by (simpl; lia). simpl broadcast.
  replace (Z.pred (Z.of_nat (length (chunk :: parts))))
    with (Z.of_nat (length parts)) by (simpl; lia).
  rewrite filter_cons. unfold Z.succ.
  destruct (skipped remediation_parts k) eqn:Hk.
  - rewrite decide_False by done. apply IH.
  - rewrite decide_True by done. rewrite fmap_cons. f_equal. apply IH.
Qed.

(** Every envelope rendered carries the chunk its part number names. *)
Lemma broadcast_elem remediation_parts total file_name k (parts : list bytes) e :
  e ∈ broadcast remediation_parts total file_name k parts →
  ∃ (i : nat) chunk,
    parts !! i = Some chunk
    ∧ e = Envelope (k + Z.of_nat i) total file_name (b64encode chunk).
Proof.
  revert k. induction parts as [|chunk parts IH]; intros k; simpl.
  - by intros ?%elem_of_nil.
  - intros He.
    assert (e = Envelope k total file_name (b64encode chunk)
            ∨ e ∈ broadcast remediation_parts total file_name (k + 1) parts)
      as [-> | Hin].
    { destruct (skipped remediation_parts k); [by right|].
      apply elem_of_cons in He. naive_solver. }
    + exists 0%nat, chunk. split; [done|]. f_equal. lia.
    + destruct (IH _ Hin) as (i & c & Hi & ->).
      exists (S i), c. split; [done|]. f_equal. lia.
Qed.

(** With nothing skipped, part [k + i] is chunk [i]. *)
Lemma broadcast_all_lookup total file_name k (parts : list bytes) (i : nat) :
  broadcast None total file_name k parts !! i =
  (λ chunk, Envelope (k + Z.of_nat i) total file_name (b64encode chunk))
    <$> parts !! i.
Proof.
  revert k i. induction parts as [|chunk parts IH]; intros k i; [done|].
  simpl. destruct i as [|i]; simpl.
  - do 2 f_equal. lia.
  - rewrite IH. destruct (parts !! i); simpl; [|done]. do 2 f_equal. lia.
Qed.

(** The length of a part: full, except possibly the last. *)
Lemma get_file_chunks_part_length (chunk_size : nat) (file : bytes)
    (i : nat) (chunk : bytes) :
  (0 < chunk_size)%nat →
  get_file_chunks chunk_size file !! i = Some chunk →
  let size := Z.of_nat (length file) in
  let total := ceil_div size (Z.of_nat chunk_size) in
  1 + Z.of_nat i ≤ total
  ∧ (1 + Z.of_nat i < total → length chunk = chunk_size)
  ∧ (1 + Z.of_nat i = total →
     Z.of_nat (length chunk) =
     if decide (size mod Z.of_nat chunk_size = 0) then Z.of_nat chunk_size
     else size mod Z.of_nat chunk_size).
Proof.
  intros Hcs Hi size total.
  assert (Htotal : (total - 1) * Z.of_nat chunk_size < size
                   ≤ total * Z.of_nat chunk_size)
    by (by apply ceil_div_spec; [lia|]).
  rewrite get_file_chunks_lookup in Hi by done.
  case_decide as Hlt; [|done]. injection Hi as <-.
  rewrite length_take, length_drop. fold size in Htotal.
  assert (Z.of_nat i < total) by nia.
  split; [lia|]. split.
  - intros. assert (Z.of_nat (S i) * Z.of_nat chunk_size < size) by nia. nia.
  - intros Hlast.
    assert (Hr : size = (total - 1) * Z.of_nat chunk_size
                        + (size - (total - 1) * Z.of_nat chunk_size)) by lia.
    set (r := size - (total - 1) * Z.of_nat chunk_size) in *.
    assert (0 < r ≤ Z.of_nat chunk_size) by (unfold r; lia).
    assert (Z.of_nat (length file - i * chunk_size) = r) by (unfold r, size; nia).
    case_decide as Hmod.
    + assert (r = Z.of_nat chunk_size); [|lia].
      destruct (decide (r = Z.of_nat chunk_size)); [done|].
      rewrite Hr, Z.add_comm, Z.mod_add, Z.mod_small in Hmod; lia.
    + rewrite Hr, Z.add_comm, Z.mod_add in Hmod |- * by lia.
      destruct (decide (r = Z.of_nat chunk_size)) as [->|].
      * rewrite Z.mod_same in Hmod; lia.
      * rewrite Z.mod_small; lia.
Qed.

Lemma filter_all {A} (P : A → Prop) `{∀ x, Decision (P x)} (l : list A) :
  Forall P l → filter P l = l.
Proof.
  induction 1 as [|x l Hx _ IH]; [done|].
  by rewrite filter_cons_True, IH.
Qed.

Lemma generation_thread_full_elem (chunk_size : nat) (file_name : string)
    (file : bytes) (e : envelope) :
  e ∈ generation_thread chunk_size file_name file None ↔
  ∃ (i : nat) chunk,
    get_file_chunks chunk_size file !! i = Some chunk
    ∧ e = Envelope (1 + Z.of_nat i)
            (ceil_div (Z.of_nat (length file)) (Z.of_nat chunk_size))
            file_name (b64encode chunk).
Proof.
  unfold generation_thread. split.
  - apply broadcast_elem.
  - intros (i & chunk & Hi & ->).
    apply list_elem_of_lookup. exists i.
    by rewrite broadcast_all_lookup, Hi.
Qed.

(** C8. For every source file and positive chunk size, the parts rendered in
    full mode are numbered 1..totalParts with totalParts the ceiling of
    fileSize / chunkSize; every part's payload decodes to exactly chunkSize
    bytes, except possibly the last, which has fileSize mod chunkSize bytes
    (chunkSize when the size divides evenly).  A 10000-byte file with
    chunkSize 2048 gives totalParts 5 and a last payload of 1808 bytes. *)
Theorem total_parts_and_payload_lengths (chunk_size : nat) (file_name : string)
    (file : bytes) :
  (0 < chunk_size)%nat →
  let size := Z.of_nat (length file) in
  let total := ceil_div size (Z.of_nat chunk_size) in
  let envelopes := generation_thread chunk_size file_name file None in
  ((total - 1) * Z.of_nat chunk_size < size ≤ total * Z.of_nat chunk_size)
  ∧ env_p <$> envelopes = seqZ 1 total
  ∧ (∀ e, e ∈ envelopes →
       env_t e = total
       ∧ ∃ payload,
           b64decode (env_d e) = Some payload
           ∧ (env_p e < total → length payload = chunk_size)
           ∧ (env_p e = total →
              Z.of_nat (length payload) =
              if decide (size mod Z.of_nat chunk_size = 0)
              then Z.of_nat chunk_size
              else size mod Z.of_nat chunk_size))
  ∧ (chunk_size = 2048%nat → size = 10000 →
     total = 5
     ∧ ∀ e, e ∈ envelopes → env_p e = 5 →
         ∃ payload, b64decode (env_d e) = Some payload
                    ∧ length payload = 1808%nat).
Proof.
  intros Hcs size total envelopes.
  assert (Hceil : (total - 1) * Z.of_nat chunk_size < size
                  ≤ total * Z.of_nat chunk_size)
    by (by apply ceil_div_spec; [lia|]).
  assert (Hparts : ∀ e, e ∈ envelopes →
       env_t e = total
       ∧ ∃ payload,
           b64decode (env_d e) = Some payload
           ∧ (env_p e < total → length payload = chunk_size)
           ∧ (env_p e = total →
              Z.of_nat (length payload) =
              if decide (size mod Z.of_nat chunk_size = 0)
              then Z.of_nat chunk_size
              else size mod Z.of_nat chunk_size)).
  { intros e (i & chunk & Hi & ->)%generation_thread_full_elem.
    split; [done|]. exists chunk. simpl.
    split; [apply b64decode_b64encode|].
    by apply get_file_chunks_part_length. }
  split; [done|]. split; [|split; [done|]].
  - unfold envelopes, generation_thread.
    rewrite broadcast_parts, get_file_chunks_length by done.
    apply filter_all, Forall_forall. intros; apply skipped_None.
  - intros -> Hsize.
    assert (Ht : total = 5).
    { apply ceil_div_spec; [lia|]. fold size. lia. }
    split; [done|]. intros e He Hp.
    destruct (Hparts e He) as (_ & payload & Hdec & _ & Hlast).
    exists payload. split; [done|].
    specialize (Hlast ltac:(lia)). rewrite Hsize in Hlast.
    change (10000 mod Z.of_nat 2048) with 1808 in Hlast.
    rewrite decide_False in Hlast by done. lia.
Qed.

Lemma total_parts_and_payload_lengths_witness :
  (0 < 2)%nat
  ∧ env_p <$> generation_thread 2 "a.bin" ["q"; "r"; "s"]%byte None = seqZ 1 2.
Proof.
  split; [lia|].
  apply (total_parts_and_payload_lengths 2 "a.bin" ["q"; "r"; "s"]%byte). lia.
Defined.

(** ** Round trip *)

Lemma collect_broadcast_lookup total file_name k (parts : list bytes)
    (i : nat) (chunk : bytes) :
  parts !! i = Some chunk →
  collect (broadcast None total file_name k parts) !! (k + Z.of_nat i)
  = Some (b64encode chunk).
Proof.
  revert k i. induction parts as [|c parts IH]; intros k i Hi; [done|].
  unfold collect. simpl. destruct i as [|i]; simpl in Hi.
  - injection Hi as ->. rewrite Z.add_0_r. apply lookup_insert_eq.
  - rewrite lookup_insert_ne by lia.
    replace (k + Z.of_nat (S i)) with ((k + 1) + Z.of_nat i) by lia.
    by apply IH.
Qed.

Lemma write_restored_parts (chunks : gmap Z string) (parts : list bytes) k :
  (∀ (i : nat) chunk, parts !! i = Some chunk →
     chunks !! (k + Z.of_nat i) = Some (b64encode chunk)) →
  write_restored chunks (seqZ k (Z.of_nat (length parts))) = Done (concat parts).
Proof.
  revert k. induction parts as [|c parts IH]; intros k Hparts; [done|].
  rewrite seqZ_cons by (simpl; lia). simpl.
  rewrite <- (Z.add_0_r k) at 1. change 0 with (Z.of_nat 0).
  rewrite (Hparts 0%nat c) by done. simpl.
  rewrite b64decode_b64encode.
  replace (Z.pred (Z.of_nat (S (length parts)))) with (Z.of_nat (length parts))
    by lia.
  rewrite IH; [done|].
  intros i chunk Hi. unfold Z.succ.
  replace (k + 1 + Z.of_nat i) with (k + Z.of_nat (S i)) by lia.
  by apply Hparts.
Qed.

(** C1. For every file and every positive chunk size: split the file into
    chunkSize-byte chunks numbered 1..totalParts, base64-encode each into an
    envelope payload; then the receiver's final write, which concatenates the
    base64-decoded payloads of chunks 1..totalParts in order, reproduces the
    file's bytes exactly. *)
Theorem chunk_round_trip (chunk_size : nat) (file_name : string) (file : bytes) :
  (0 < chunk_size)%nat →
  let total := ceil_div (Z.of_nat (length file)) (Z.of_nat chunk_size) in
  let envelopes := generation_thread chunk_size file_name file None in
  write_restored (collect envelopes) (seqZ 1 total) = Done file.
Proof.
  intros Hcs total envelopes. unfold total.
  rewrite <- get_file_chunks_length by done.
  rewrite (write_restored_parts _ (get_file_chunks chunk_size file)).
  - by rewrite get_file_chunks_concat.
  - intros i chunk Hi. by apply collect_broadcast_lookup.
Qed.

Lemma chunk_round_trip_witness :
  (0 < 2)%nat
  ∧ write_restored (collect (generation_thread 2 "a.bin" ["q"; "r"; "s"]%byte None))
      (seqZ 1 (ceil_div 3 2))
    = Done ["q"; "r"; "s"]%byte.
Proof.
  split; [lia|].
  apply (chunk_round_trip 2 "a.bin" ["q"; "r"; "s"]%byte). lia.
Defined.

(** ** Remediation *)

Lemma elem_of_missing_parts (chunks : gmap Z string) (total k : Z) :
  k ∈ missing_parts chunks total ↔ 1 ≤ k ≤ total ∧ k ∉ dom chunks.
Proof.
  unfold missing_parts.
  rewrite merge_sort_Permutation, elem_of_elements, elem_of_difference,
    elem_of_list_to_set, elem_of_seqZ.
  intuition lia.
Qed.

Lemma elem_of_part_range (total k : Z) : k ∈ part_range total ↔ 1 ≤ k ≤ total.
Proof. unfold part_range. rewrite elem_of_list_to_set, elem_of_seqZ. lia. Qed.

Lemma filter_none {A} (P : A → Prop) `{∀ x, Decision (P x)} (l : list A) :
  (∀ x, ¬ P x) → filter P l = [].
Proof.
  intros HP. induction l as [|x l IH]; [done|].
  by rewrite filter_cons_False.
Qed.

Lemma sender_main_parts (chunk_size : nat) (file_name : string) (file : bytes)
    (missing : list Z) :
  (0 < chunk_size)%nat →
  env_p <$> sender_main chunk_size file_name file (Some missing) =
  filter (λ k, k ∈ missing)
    (seqZ 1 (ceil_div (Z.of_nat (length file)) (Z.of_nat chunk_size))).
Proof.
  intros Hcs. unfold sender_main. case_bool_decide as Hempty.
  - symmetry. apply filter_none. intros k Hk.
    assert (k ∈ (list_to_set missing : gset Z)) by by apply elem_of_list_to_set.
    set_solver.
  - unfold generation_thread.
    rewrite broadcast_parts, get_file_chunks_length by done.
    apply list_filter_iff. intros k.
    rewrite skipped_Some by done. apply elem_of_list_to_set.
Qed.

(** C9. Remediation closure.  Run with the selector set M of a manifest's
    missing list, the sender renders the envelope of a part of the file
    exactly when its number is in M, skipping every other part; for
    M = {1..totalParts} - keys(chunks) of the prior session, the replayed part
    numbers together with the prior keys cover the range 1..totalParts, and
    make up exactly that range when the prior keys lie in it. *)
Theorem remediation_closure (chunk_size : nat) (file_name : string)
    (file : bytes) (M : list Z) (prior : gmap Z string) :
  (0 < chunk_size)%nat →
  let total := ceil_div (Z.of_nat (length file)) (Z.of_nat chunk_size) in
  let replayed (selector : list Z) : list Z :=
    env_p <$> sender_main chunk_size file_name file (Some selector) in
  replayed M = filter (λ k, k ∈ M) (seqZ 1 total)
  ∧ part_range total
      ⊆ list_to_set (replayed (missing_parts prior total)) ∪ dom prior
  ∧ (dom prior ⊆ part_range total →
     list_to_set (replayed (missing_parts prior total)) ∪ dom prior
     = part_range total).
Proof.
  intros Hcs total replayed.
  assert (Hreplayed : ∀ k,
            k ∈ (list_to_set (replayed (missing_parts prior total)) : gset Z)
            ↔ 1 ≤ k ≤ total ∧ k ∉ dom prior).
  { intros k. unfold replayed. rewrite sender_main_parts by done.
    fold total.
    rewrite elem_of_list_to_set, list_elem_of_filter, elem_of_missing_parts,
      elem_of_seqZ.
    intuition lia. }
  split; [by apply sender_main_parts|]. split.
  - intros k Hk%elem_of_part_range.
    apply elem_of_union. rewrite Hreplayed.
    destruct (decide (k ∈ dom prior)); [by right | by left].
  - intros Hdom. apply set_eq. intros k.
    rewrite elem_of_union, Hreplayed, elem_of_part_range.
    split.
    + intros [[? _] | Hk%Hdom%elem_of_part_range]; done.
    + intros ?. destruct (decide (k ∈ dom prior)); [by right | by left].
Qed.

Lemma remediation_closure_witness :
  (0 < 2)%nat
  ∧ env_p <$> sender_main 2 "a.bin" ["q"; "r"; "s"]%byte (Some [2])
    = filter (λ k, k ∈ [2]) (seqZ 1 (ceil_div 3 2)).
Proof.
  split; [lia|].
  apply (remediation_closure 2 "a.bin" ["q"; "r"; "s"]%byte [2] ∅). lia.
Defined.

(** ** The assembler *)

Lemma check_completion_not_interrupted dk s c s' dk' :
  check_completion dk s ≠ Interrupted c s' dk'.
Proof.
  unfold check_completion.
  destruct (total_parts s); [|done].
  case_bool_decide; [|done].
  by destruct (write_restored _ _).
Qed.

Lemma timed_out_spec (s : session) (now : Z) :
  timed_out s now = true ↔
  ∃ total, total_parts s = Some total
           ∧ Z.of_nat (size (chunks s)) < total
           ∧ now - last_part_found_time s > SCAN_TIMEOUT_SECONDS.
Proof.
  unfold timed_out. destruct (total_parts s) as [total|].
  - rewrite andb_true_iff, !bool_decide_eq_true. split.
    + intros [? ?]. by exists total.
    + intros (? & [= <-] & ? & ?). done.
  - split; [done | by intros (? & ? & _)].
Qed.

Lemma stall_fires_timed_out chunk_size dk s now ev :
  stall_fires chunk_size dk s now ev ↔ timed_out s now = true.
Proof.
  unfold stall_fires, round. destruct (timed_out s now); split; try done.
  - eauto.
  - intros [dk' H].
    destruct ev as [|[| | |payload] now'|]; try done;
      by apply check_completion_not_interrupted in H.
Qed.

(** C2. Stall detection fires if and only if now - lastProgressTime exceeds
    the timeout while len(chunks) < totalParts; it never fires once
    len(chunks) == totalParts; and it is tested before the next result-queue
    item is consumed: when it fires, the round's outcome is the same whatever
    the queue holds. *)
Theorem stall_detection (chunk_size : nat) (dk : disk) (s : session) (now : Z)
    (ev : poll) :
  (stall_fires chunk_size dk s now ev ↔
   ∃ total, total_parts s = Some total
            ∧ Z.of_nat (size (chunks s)) < total
            ∧ now - last_part_found_time s > SCAN_TIMEOUT_SECONDS)
  ∧ (total_parts s = Some (Z.of_nat (size (chunks s))) →
     ¬ stall_fires chunk_size dk s now ev)
  ∧ (stall_fires chunk_size dk s now ev →
     ∀ ev', round chunk_size dk s now ev' = round chunk_size dk s now ev).
Proof.
  rewrite stall_fires_timed_out. split; [apply timed_out_spec|]. split.
  - intros Htotal (total & Ht & Hlt & _)%timed_out_spec.
    rewrite Htotal in Ht. injection Ht as <-. lia.
  - intros Hfire ev'. unfold round. by rewrite Hfire.
Qed.

(** An envelope for a part number the session holds changes nothing. *)
Lemma on_payload_seen chunk_size dk s part_num t f d now :
  is_Some (chunks s !! part_num) →
  on_payload chunk_size dk s (Object (Some part_num) t f d) now = s.
Proof. intros [x Hx]. simpl. rewrite Hx. by destruct d. Qed.

Lemma check_completion_incomplete dk s total :
  total_parts s = Some total → Z.of_nat (size (chunks s)) < total →
  check_completion dk s = Continue s.
Proof.
  intros Ht Hlt. unfold check_completion. rewrite Ht.
  by rewrite bool_decide_eq_false_2 by lia.
Qed.

(** C10. An envelope whose part number is already a key of chunks leaves the
    session as it is: the stored payload stays (first write wins, also when
    the new payload differs) and lastProgressTime is not updated.  Hence over
    a stream of already-seen part numbers an incomplete session times out at
    the first round whose clock reading is more than the timeout after the
    unchanged lastProgressTime. *)
Theorem seen_parts_are_ignored (chunk_size : nat) (dk : disk) (s : session)
    (total : Z) (rounds : list (Z * poll)) :
  total_parts s = Some total →
  Z.of_nat (size (chunks s)) < total →
  Forall (already_seen s) rounds →
  (∀ part_num t f d now,
     is_Some (chunks s !! part_num) →
     on_payload chunk_size dk s (Object (Some part_num) t f d) now = s)
  ∧ main_loop chunk_size dk s rounds =
    if decide (Exists (late (last_part_found_time s)) rounds)
    then Interrupted ScanTimeout s
           (save_draft_and_exit chunk_size (chunks s) (total_parts s)
              (output_filename s) dk)
    else Continue s.
Proof.
  intros Ht Hlt Hseen. split; [intros; by apply on_payload_seen|].
  induction Hseen as [|[now ev] rounds Hr _ IH]; cbn [main_loop].
  - by destruct (decide _) as [?%Exists_nil|].
  - unfold round.
    destruct (timed_out s now) eqn:Hto.
    + apply timed_out_spec in Hto as (t' & _ & _ & Hlate).
      rewrite decide_True; [done|]. by apply Exists_cons_hd.
    + assert (¬ late (last_part_found_time s) (now, ev)) as Hnl.
      { intros Hlate. apply not_true_iff_false in Hto. apply Hto.
        apply timed_out_spec. eauto. }
      unfold already_seen in Hr. simpl in Hr.
      destruct ev as [|[| | |[|[part_num|] t f [d|]]] now'|]; try done.
      rewrite on_payload_seen by done.
      rewrite (check_completion_incomplete _ _ total) by done.
      rewrite IH. apply decide_ext. rewrite Exists_cons.
      split; [by right | by intros [?|?]].
Qed.

Lemma seen_parts_are_ignored_witness :
  let s := Session {[1 := "QQ=="%string]} (Some 2) (Some "a.bin"%string) 0 in
  let again := (3, Got (of_envelope (Envelope 1 2 "a.bin" "Qg==")) 3) in
  main_loop 2048 (Disk ∅ None) s [again; again] = Continue s.
Proof.
  intros s again.
  apply (seen_parts_are_ignored 2048 (Disk ∅ None) s 2 [again; again]).
  - reflexivity.
  - vm_compute. reflexivity.
  - repeat constructor; unfold already_seen; simpl; by eexists.
Defined.

(** ** Saving a draft *)

Lemma check_completion_Continue dk s s' :
  check_completion dk s = Continue s' → s' = s.
Proof.
  unfold check_completion. destruct (total_parts s); [|congruence].
  case_bool_decide; [|congruence].
  by destruct (write_restored _ _).
Qed.

Lemma round_Continue chunk_size dk s now ev s' :
  round chunk_size dk s now ev = Continue s' →
  s' = s ∨ ∃ payload now', s' = on_payload chunk_size dk s payload now'.
Proof.
  unfold round. destruct (timed_out s now); [done|].
  destruct ev as [|[| | |payload] now'|]; try done.
  - intros [= <-]. by left.
  - intros ->%check_completion_Continue. by left.
  - intros ->%check_completion_Continue. right. eauto.
Qed.

(** A session with a file name holds at least one part. *)
Lemma on_payload_named chunk_size dk s payload now :
  (is_Some (output_filename s) → chunks s ≠ ∅) →
  is_Some (output_filename (on_payload chunk_size dk s payload now)) →
  chunks (on_payload chunk_size dk s payload now) ≠ ∅.
Proof.
  intros Hs. destruct payload as [|[part_num|] t f [d|]]; simpl; try done.
  destruct (chunks s !! part_num); [done|].
  destruct (total_parts s).
  - simpl. intros _. apply insert_non_empty.
  - destruct t as [total|]; [|done].
    destruct f as [name|]; [|done].
    simpl. intros _. apply insert_non_empty.
Qed.

Lemma main_loop_Interrupted chunk_size dk s rounds c s' dk' :
  (is_Some (output_filename s) → chunks s ≠ ∅) →
  main_loop chunk_size dk s rounds = Interrupted c s' dk' →
  (is_Some (output_filename s') → chunks s' ≠ ∅)
  ∧ dk' = save_draft_and_exit chunk_size (chunks s') (total_parts s')
            (output_filename s') dk.
Proof.
  revert s. induction rounds as [|[now ev] rounds IH]; intros s Hs; [done|].
  simpl. destruct (round chunk_size dk s now ev) as [s1| | | |] eqn:Hround;
    try done.
  - apply IH. apply round_Continue in Hround as [->|(payload & now' & ->)];
      [done | by apply on_payload_named].
  - intros [= -> -> ->]. unfold round in Hround.
    destruct (timed_out s now).
    { by injection Hround as _ -> <-. }
    destruct ev as [|[| | |payload] now'|]; try done.
    + by apply check_completion_not_interrupted in Hround.
    + by apply check_completion_not_interrupted in Hround.
    + by injection Hround as _ -> <-.
Qed.

Lemma sorted_le_NoDup_lt (l : list Z) :
  StronglySorted Z.le l → NoDup l → StronglySorted Z.lt l.
Proof.
  induction 1 as [|x l _ IH Hx]; intros Hnd; [constructor|].
  apply NoDup_cons in Hnd as [Hnotin Hnd].
  constructor; [by apply IH|].
  apply Forall_forall. intros y Hy.
  rewrite Forall_forall in Hx. specialize (Hx y Hy).
  assert (x ≠ y) by (intros ->; done). lia.
Qed.

Lemma missing_parts_ascending (chunks : gmap Z string) (total : Z) :
  StronglySorted Z.lt (missing_parts chunks total).
Proof.
  apply sorted_le_NoDup_lt.
  - apply StronglySorted_merge_sort; apply _.
  - unfold missing_parts. rewrite merge_sort_Permutation. apply NoDup_elements.
Qed.

(** What a scan that ends stalled or interrupted leaves when the session is
    bound to a file name: if no part was accepted, nothing is written; if
    every part of 1..totalParts is in chunks nothing is written either;
    otherwise the manifest {filename, total_parts, missing} is written, with
    missing the ascending list of {1..totalParts} - keys(chunks), and the
    draft is what [write_draft] makes of the parts held (no other file is
    touched). *)
Lemma named_session_artifacts (chunk_size : nat) (dk : disk)
    (start : Z) (rounds : list (Z * poll)) (c : cause) (s : session)
    (dk' : disk) :
  main_scanner chunk_size dk start rounds = Interrupted c s dk' →
  (chunks s = ∅ → dk' = dk)
  ∧ ∀ total name,
      total_parts s = Some total → output_filename s = Some name →
      (part_range total ⊆ dom (chunks s) → dk' = dk)
      ∧ (¬ part_range total ⊆ dom (chunks s) →
         ∃ missing,
           missing_parts_json dk' = Some (Manifest name total missing)
           ∧ StronglySorted Z.lt missing
           ∧ (∀ k, k ∈ missing ↔ k ∈ part_range total ∖ dom (chunks s))
           ∧ binary_files dk' !! draft_name name
             = Some (output (write_draft chunk_size (chunks s) total
                               (seqZ 1 total)))
           ∧ ∀ other, other ≠ draft_name name →
                      binary_files dk' !! other = binary_files dk !! other).
Proof.
  intros Hrun. apply main_loop_Interrupted in Hrun as [Hnamed ->];
    [|by intros [? [=]]].
  split.
  - intros Hempty. destruct (output_filename s) as [name|] eqn:Hname.
    + destruct Hnamed; [eauto | done].
    + by destruct (total_parts s).
  - intros total name -> ->. simpl.
    assert (Hmem : ∀ k, k ∈ missing_parts (chunks s) total
                        ↔ k ∈ part_range total ∖ dom (chunks s)).
    { intros k. rewrite elem_of_missing_parts, elem_of_difference,
        elem_of_part_range. done. }
    split.
    + intros Hall. destruct (missing_parts (chunks s) total) as [|k l]; [done|].
      specialize (Hmem k) as [Hk _].
      apply elem_of_difference in Hk as [Hk Hnotin]; [|left].
      destruct Hnotin. by apply Hall.
    + intros Hnot.
      pose proof (missing_parts_ascending (chunks s) total) as Hsorted.
      destruct (missing_parts (chunks s) total) as [|k l] eqn:Hmissing.
      * exfalso. apply Hnot. intros k Hk.
        destruct (decide (k ∈ dom (chunks s))); [done|].
        exfalso. apply (not_elem_of_nil k), Hmem.
        by apply elem_of_difference.
      * exists (k :: l). simpl.
        repeat split; try done; try apply Hmem.
        -- apply lookup_insert_eq.
        -- intros other Hother. by rewrite lookup_insert_ne.
Qed.

Lemma named_session_artifacts_witness :
  let dk := Disk ∅ None in
  let e1 := Envelope 1 2 "a.bin" (b64encode ["q"; "r"]%byte) in
  let s := Session {[1 := env_d e1]} (Some 2) (Some "a.bin"%string) 0 in
  let dk' := save_draft_and_exit 2 (chunks s) (Some 2) (Some "a.bin"%string) dk in
  main_scanner 2 dk 0 [(0, Got (of_envelope e1) 0); (6, Empty)]
    = Interrupted ScanTimeout s dk'
  ∧ ∃ missing,
      missing_parts_json dk' = Some (Manifest "a.bin" 2 missing)
      ∧ ∀ k, k ∈ missing ↔ k ∈ part_range 2 ∖ dom (chunks s).
Proof.
  intros dk e1 s dk'.
  assert (Hrun : main_scanner 2 dk 0 [(0, Got (of_envelope e1) 0); (6, Empty)]
                 = Interrupted ScanTimeout s dk') by (vm_compute; reflexivity).
  split; [exact Hrun|].
  destruct (named_session_artifacts 2 dk 0 _ ScanTimeout s dk' Hrun)
    as [_ Hbound].
  destruct (Hbound 2 "a.bin"%string eq_refl eq_refl) as [_ Hsome].
  destruct Hsome as (missing & Hjson & _ & Hmem & _).
  - intros Hall. specialize (Hall 2).
    rewrite elem_of_part_range, elem_of_dom in Hall.
    destruct Hall as [x Hx]; [lia|]. vm_compute in Hx. discriminate Hx.
  - exists missing. split; [exact Hjson | exact Hmem].
Defined.

(** C5 (the code departs from the claim).  The first entry of a session is
    the object [{"p": 1, "t": 3, "d": "QQ=="}], which lacks the file name and
    binds the total; the second is the genuine envelope of part 1 of
    [a.bin], which is stored while the file name stays unbound; then no
    symbol comes for six seconds.  The scan times out holding part 1 of 3,
    with parts 2 and 3 missing, and [save_draft_and_exit] leaves the disk as
    it was: neither manifest nor draft is written.  With the name bound, the
    same call writes the manifest with missing = [2, 3] and the draft. *)
Theorem nameless_session_saves_nothing (dk : disk) :
  let nameless := Json (Object (Some 1) (Some 3) None (Some "QQ=="%string)) in
  let genuine := of_envelope (Envelope 1 3 "a.bin" "QQ==") in
  let held : gmap Z string := {[1 := "QQ=="%string]} in
  let saved :=
    save_draft_and_exit CHUNK_SIZE_BYTES held (Some 3) (Some "a.bin"%string) dk in
  main_scanner CHUNK_SIZE_BYTES dk 0
    [(1, Got nameless 1); (2, Got genuine 2); (8, Empty)]
  = Interrupted ScanTimeout (Session held (Some 3) None 2) dk
  ∧ missing_parts held 3 = [2; 3]
  ∧ missing_parts_json saved = Some (Manifest "a.bin" 3 [2; 3])
  ∧ binary_files saved !! "DRAFT_a.bin"%string
    = Some ("A"%byte :: zeros CHUNK_SIZE_BYTES).
Proof.
  intros nameless genuine held saved.
  assert (Hmissing : missing_parts held 3 = [2; 3]) by (vm_compute; reflexivity).
  split; [vm_compute; reflexivity|]. split; [done|].
  unfold saved, save_draft_and_exit. rewrite Hmissing. simpl.
  split; [done|]. rewrite lookup_insert_eq. vm_compute. reflexivity.
Qed.

(** ** Entries that are not envelopes *)

(** Entries that do not parse, are not objects, or lack [p] or [d] leave the
    session as it is; so does one that lacks [t] while no total is bound. *)
Lemma foreign_entries_ignored chunk_size dk s now p t f d :
  on_payload chunk_size dk s NotAnObject now = s
  ∧ on_payload chunk_size dk s (Object None t f d) now = s
  ∧ on_payload chunk_size dk s (Object p t f None) now = s
  ∧ (total_parts s = None →
     on_payload chunk_size dk s (Object p None f d) now = s).
Proof.
  repeat split; simpl; try done.
  - by destruct p.
  - intros Ht. destruct p as [part_num|], d as [base64_data|]; try done.
    destruct (chunks s !! part_num); [done|]. by rewrite Ht.
Qed.

(** C4 (the code departs from the claim).  The first entry of a session is
    the object [{"p": 1, "t": 3, "d": "QQ=="}], which lacks the file name.
    The assembler reports it as ignored, yet it has bound totalParts to 3.
    With the total bound the timeout test is armed: the scan now times out,
    where without that entry it keeps waiting for a first part.  An entry that
    is not UTF-8 text leaves the loop with an exception no handler catches. *)
Theorem nameless_envelope_binds_total :
  let dk := Disk ∅ None in
  let s0 := Session ∅ None None 0 in
  let nameless := Json (Object (Some 1) (Some 3) None (Some "QQ=="%string)) in
  round CHUNK_SIZE_BYTES dk s0 1 (Got nameless 1)
    = Continue (Session ∅ (Some 3) None 0)
  ∧ main_scanner CHUNK_SIZE_BYTES dk 0 [(1, Got nameless 1); (7, Empty)]
    = Interrupted ScanTimeout (Session ∅ (Some 3) None 0) dk
  ∧ main_scanner CHUNK_SIZE_BYTES dk 0 [(7, Empty)] = Continue s0
  ∧ round CHUNK_SIZE_BYTES dk s0 1 (Got NotUtf8 1) = Crashed s0.
Proof. repeat split; vm_compute; reflexivity. Qed.

(** ** The layout of a draft *)

Lemma write_draft_regions chunk_size (chunks : gmap Z string) total
    (parts : list Z) :
  (∀ i s, chunks !! i = Some s → is_Some (b64decode s)) →
  write_draft chunk_size chunks total parts
  = Done (concat (draft_region chunk_size chunks total <$> parts)).
Proof.
  intros Hdec. induction parts as [|i parts IH]; [done|].
  simpl. unfold draft_region at 1.
  destruct (chunks !! i) as [s|] eqn:Hi.
  - destruct (Hdec i s Hi) as [b Hb]. rewrite Hb, IH. done.
  - case_bool_decide; rewrite IH; done.
Qed.

Lemma length_zeros n : length (zeros n) = n.
Proof. apply length_replicate. Qed.

Lemma concat_length_const {A} (n : nat) (l : list (list A)) :
  Forall (λ x, length x = n) l → length (concat l) = (length l * n)%nat.
Proof.
  induction 1 as [|x l Hx _ IH]; [done|].
  simpl. rewrite length_app, IH, Hx. lia.
Qed.

Section DraftLayout.
Variables (chunk_size : nat) (chunks : gmap Z string) (total : Z).
Hypothesis decodes : ∀ i s, chunks !! i = Some s → is_Some (b64decode s).
Hypothesis full_size :
  ∀ i s b, 1 ≤ i < total → chunks !! i = Some s → b64decode s = Some b →
           length b = chunk_size.

Lemma draft_region_length (i : Z) :
  1 ≤ i < total →
  length (draft_region chunk_size chunks total i) = chunk_size.
Proof using decodes full_size.
  intros Hi. unfold draft_region.
  destruct (chunks !! i) as [s|] eqn:Hs.
  - destruct (decodes i s Hs) as [b Hb]. rewrite Hb. simpl. eauto.
  - rewrite bool_decide_eq_true_2 by lia. apply length_zeros.
Qed.

Lemma regions_length (j : Z) (n : nat) :
  1 ≤ j → j + Z.of_nat n ≤ total →
  length (concat (draft_region chunk_size chunks total <$> seqZ j (Z.of_nat n)))
  = (n * chunk_size)%nat.
Proof using decodes full_size.
  intros Hj Hn. rewrite (concat_length_const chunk_size).
  - by rewrite length_fmap, length_seqZ, Nat2Z.id.
  - apply Forall_fmap, Forall_forall. intros i Hi%elem_of_seqZ. simpl.
    apply draft_region_length. lia.
Qed.

(** The draft, cut at part [i]: the regions before it, then its own, then
    the rest. *)
Lemma draft_split (i : Z) :
  1 ≤ i ≤ total →
  concat (draft_region chunk_size chunks total <$> seqZ 1 total)
  = concat (draft_region chunk_size chunks total <$> seqZ 1 (i - 1))
    ++ draft_region chunk_size chunks total i
    ++ concat (draft_region chunk_size chunks total <$> seqZ (i + 1) (total - i)).
Proof using Type.
  intros Hi.
  assert (seqZ 1 total = seqZ 1 (i - 1) ++ i :: seqZ (i + 1) (total - i))
    as ->.
  { replace total with ((i - 1) + (1 + (total - i))) at 1 by lia.
    rewrite seqZ_app by lia. f_equal.
    rewrite seqZ_cons by lia.
    replace (1 + (i - 1)) with i by lia.
    replace (Z.succ i) with (i + 1) by lia.
    by replace (Z.pred (1 + (total - i))) with (total - i) by lia. }
  by rewrite fmap_app, concat_app.
Qed.
End DraftLayout.

(** C6 (as amended).  The draft is written over the parts 1..totalParts
    in ascending order: the decoded payload of each part present, exactly
    chunkSize null bytes for each absent part before the last, and nothing for
    an absent last part.  When the payloads decode and those before the last
    have chunkSize bytes, part i < totalParts occupies the i-th stride of
    chunkSize bytes, the last part what follows, and the draft has
    (totalParts-1)*chunkSize bytes plus the length of the last part's payload
    if it was received, and no more if it was not.  With parts {1,2,4} of 4
    received, missing is [3] and the stride of part 3 is all null bytes. *)
Theorem draft_layout (chunk_size : nat) (chunks : gmap Z string) (total : Z) :
  (∀ i s, chunks !! i = Some s → is_Some (b64decode s)) →
  (∀ i s b, 1 ≤ i < total → chunks !! i = Some s → b64decode s = Some b →
            length b = chunk_size) →
  1 ≤ total →
  let draft := write_draft chunk_size chunks total (seqZ 1 total) in
  draft = Done (concat (draft_region chunk_size chunks total <$> seqZ 1 total))
  ∧ (∀ i, 1 ≤ i < total →
       stride chunk_size (output draft) i
       = draft_region chunk_size chunks total i)
  ∧ drop (Z.to_nat (total - 1) * chunk_size) (output draft)
    = draft_region chunk_size chunks total total
  ∧ length (output draft)
    = (Z.to_nat (total - 1) * chunk_size
       + length (draft_region chunk_size chunks total total))%nat
  ∧ (chunks !! total = None →
     length (output draft) = (Z.to_nat (total - 1) * chunk_size)%nat)
  ∧ (∀ i, 1 ≤ i < total → chunks !! i = None →
       stride chunk_size (output draft) i = zeros chunk_size)
  ∧ (total = 4 → dom chunks = {[1; 2; 4]} →
     missing_parts chunks 4 = [3]
     ∧ stride chunk_size (output draft) 3 = zeros chunk_size).
Proof.
  intros Hdec Hfull Htotal draft.
  assert (Hdraft : draft = Done (concat (draft_region chunk_size chunks total
                                           <$> seqZ 1 total)))
    by by apply write_draft_regions.
  assert (Hbefore : ∀ i, 1 ≤ i ≤ total →
            length (concat (draft_region chunk_size chunks total
                              <$> seqZ 1 (i - 1)))
            = (Z.to_nat (i - 1) * chunk_size)%nat).
  { intros i Hi. rewrite <- (Z2Nat.id (i - 1)) at 1 by lia.
    apply regions_length; [done | done | lia | lia]. }
  assert (Hstride : ∀ i, 1 ≤ i < total →
            stride chunk_size (output draft) i
            = draft_region chunk_size chunks total i).
  { intros i Hi. unfold stride. rewrite Hdraft. simpl.
    rewrite (draft_split _ _ _ i) by lia.
    rewrite drop_app_length' by (symmetry; apply Hbefore; lia).
    apply take_app_length'. symmetry. by apply draft_region_length. }
  assert (Hlast : drop (Z.to_nat (total - 1) * chunk_size) (output draft)
                  = draft_region chunk_size chunks total total).
  { rewrite Hdraft. simpl. rewrite (draft_split _ _ _ total) by lia.
    rewrite drop_app_length' by (symmetry; apply Hbefore; lia).
    rewrite Z.sub_diag. simpl. apply app_nil_r. }
  assert (Hlen : length (output draft)
                 = (Z.to_nat (total - 1) * chunk_size
                    + length (draft_region chunk_size chunks total total))%nat).
  { rewrite Hdraft. simpl. rewrite (draft_split _ _ _ total) by lia.
    rewrite Z.sub_diag. simpl. rewrite app_nil_r.
    by rewrite length_app, Hbefore by lia. }
  assert (Hgap : ∀ i, 1 ≤ i < total → chunks !! i = None →
            stride chunk_size (output draft) i = zeros chunk_size).
  { intros i Hi Hnone. rewrite Hstride by done. unfold draft_region.
    rewrite Hnone. by rewrite bool_decide_eq_true_2 by lia. }
  do 4 (split; [done|]). split; [|split; [done|]].
  - intros Hnone. rewrite Hlen. unfold draft_region. rewrite Hnone.
    rewrite bool_decide_eq_false_2 by (intros ?; done). simpl. lia.
  - intros Hfour Hdom. split.
    + unfold missing_parts. rewrite Hdom. by vm_compute.
    + apply Hgap; [lia|]. apply not_elem_of_dom. rewrite Hdom.
      rewrite !elem_of_union, !elem_of_singleton. lia.
Qed.

Lemma draft_layout_witness :
  let chunks : gmap Z string :=
    {[1 := b64encode ["q"; "r"]%byte; 3 := b64encode ["s"]%byte]} in
  output (write_draft 2 chunks 3 (seqZ 1 3))
  = ["q"; "r"; "000"; "000"; "s"]%byte
  ∧ stride 2 (output (write_draft 2 chunks 3 (seqZ 1 3))) 2 = zeros 2.
Proof.
  intros chunks. split; [by vm_compute|].
  apply (draft_layout 2 chunks 3).
  - intros i s Hs. apply lookup_insert_Some in Hs as [[_ <-]|[_ Hs]];
      [by vm_compute; eexists|].
    apply lookup_singleton_Some in Hs as [_ <-]. by vm_compute; eexists.
  - intros i s b Hi Hs Hb.
    apply lookup_insert_Some in Hs as [[_ <-]|[_ Hs]].
    + vm_compute in Hb. by injection Hb as <-.
    + apply lookup_singleton_Some in Hs as [<- _]. lia.
  - lia.
  - lia.
  - reflexivity.
Defined.

(** C6, the claim as stated fails: a 2049-byte file has two parts, the last
    of one byte.  The receiver gets part 1 and times out.  The draft it saves
    has 2048 bytes, not (2-1)*2048 + 1. *)
Lemma draft_length_counterexample :
  let file := replicate 2049 "a"%byte in
  let total := ceil_div 2049 2048 in
  let envelopes := generation_thread 2048 "a.bin" file None in
  let rounds := deliver [(0, 0)] (take 1 envelopes) ++ [(6, Empty)] in
  total = 2
  ∧ length <$> last (get_file_chunks 2048 file) = Some 1%nat
  ∧ ∃ s dk',
      main_scanner 2048 (Disk ∅ None) 0 rounds = Interrupted ScanTimeout s dk'
      ∧ dom (chunks s) = {[1]}
      ∧ length <$> binary_files dk' !! "DRAFT_a.bin"%string = Some 2048%nat
      ∧ 2048%nat ≠ ((2 - 1) * 2048 + 1)%nat.
Proof.
  intros file total envelopes rounds.
  split; [by vm_compute|]. split; [by vm_compute|].
  eexists _, _. split; [vm_compute; reflexivity|].
  split; [by vm_compute|]. split; [by vm_compute | lia].
Qed.

(** ** Loading a draft *)

Lemma take_drop_nil {A} (n k : nat) (l : list A) :
  take n l = [] → take n (drop k l) = [].
Proof.
  intros [-> | ->]%take_eq_nil; [done|]. by rewrite drop_nil, take_nil.
Qed.

(** The test the loop applies to a non-empty read. *)
Lemma load_test_trusted (chunk_size : nat) (chunk : bytes) :
  chunk ≠ [] →
  bool_decide (chunk ≠ zeros chunk_size)
  && bool_decide (chunk ≠ zeros (length chunk)) = true
  ↔ trusted chunk.
Proof.
  intros Hne. rewrite andb_true_iff, !bool_decide_eq_true. unfold trusted.
  split; [by intros [_ ?]|]. intros [_ Hz]. split; [|done].
  intros Heq. apply Hz. rewrite Heq at 2. by rewrite length_zeros.
Qed.

Lemma load_draft_lookup (chunk_size : nat) (rest : bytes) (j : Z) (n : nat)
    (held : gmap Z string) (i : Z) :
  load_draft chunk_size rest (seqZ j (Z.of_nat n)) held !! i =
  match held !! i with
  | Some base64_data => Some base64_data
  | None =>
      let region := take chunk_size (drop (Z.to_nat (i - j) * chunk_size) rest) in
      if decide (j ≤ i < j + Z.of_nat n ∧ trusted region)
      then Some (b64encode region) else None
  end.
Proof.
  revert rest j held. induction n as [|n IH]; intros rest j held.
  { simpl. destruct (held !! i); [done|]. by rewrite decide_False by lia. }
  rewrite seqZ_cons by lia.
  replace (Z.pred (Z.of_nat (S n))) with (Z.of_nat n) by lia.
  cbn [load_draft].
  destruct (take chunk_size rest) as [|b chunk] eqn:Htake.
  { destruct (held !! i); [done|]. cbv zeta.
    rewrite take_drop_nil by done.
    rewrite decide_False; [done|]. by intros [_ [? _]]. }
  rewrite <- Htake in *.
  assert (Hne : take chunk_size rest ≠ []) by (rewrite Htake at 1; done).
  clear Htake b chunk.
  rewrite IH. cbv zeta.
  pose proof (load_test_trusted chunk_size _ Hne) as Htest.
  destruct (decide (i = j)) as [->|Hij].
  - (* the part this read belongs to *)
    rewrite Z.sub_diag. simpl drop.
    rewrite (decide_False (P := _ ∧ trusted _)) by lia.
    destruct (held !! j) as [x|] eqn:Hheld.
    + destruct (_ && _); by rewrite Hheld.
    + destruct (_ && _) eqn:Hcond.
      * rewrite lookup_insert_eq.
        rewrite decide_True; [done|]. split; [lia | by apply Htest].
      * rewrite Hheld. rewrite decide_False; [done|].
        intros [_ Ht%Htest]. congruence.
  - (* another part: the read changes nothing there *)
    assert (Hsame : (if bool_decide (take chunk_size rest ≠ zeros chunk_size)
                        && bool_decide (take chunk_size rest
                                        ≠ zeros (length (take chunk_size rest)))
                     then match held !! j with
                          | Some _ => held
                          | None => <[j:=b64encode (take chunk_size rest)]> held
                          end
                     else held) !! i = held !! i).
    { destruct (_ && _); [|done].
      destruct (held !! j); [done|]. by rewrite lookup_insert_ne. }
    rewrite Hsame. destruct (held !! i); [done|].
    destruct (decide (j < i)) as [Hlt|Hge].
    + rewrite drop_drop.
      replace (chunk_size + Z.to_nat (i - Z.succ j) * chunk_size)%nat
        with (Z.to_nat (i - j) * chunk_size)%nat by nia.
      apply decide_ext. intuition lia.
    + rewrite !decide_False; [done | lia | lia].
Qed.

(** C7 (as amended).  When the first envelope is accepted and a draft for the
    file name it binds exists, the draft is scanned in strides of chunkSize
    bytes, one per part number 1..totalParts: a part the session does not
    hold is inserted, with the stride as its payload, exactly when the stride
    is not empty and not all null bytes.  The same test decides for the last,
    possibly short, region: its length is not compared with anything.  The
    accepted envelope's own payload is stored after the load. *)
Theorem draft_loading (chunk_size : nat) (dk : disk) (s : session)
    (part_num total : Z) (name d : string) (now : Z) (draft : bytes) :
  total_parts s = None →
  chunks s !! part_num = None →
  binary_files dk !! draft_name name = Some draft →
  let s' := on_payload chunk_size dk s
              (Object (Some part_num) (Some total) (Some name) (Some d)) now in
  let loaded := load_draft chunk_size draft (seqZ 1 total) (chunks s) in
  chunks s' = <[part_num := d]> loaded
  ∧ ∀ i, loaded !! i =
         match chunks s !! i with
         | Some held => Some held
         | None =>
             if decide (1 ≤ i ≤ total ∧ trusted (stride chunk_size draft i))
             then Some (b64encode (stride chunk_size draft i)) else None
         end.
Proof.
  intros Ht Hp Hdraft s' loaded. split.
  - unfold s'. simpl. by rewrite Hp, Ht, Hdraft.
  - intros i. unfold loaded, stride.
    destruct (decide (0 ≤ total)) as [Hpos|Hneg].
    + rewrite <- (Z2Nat.id total) at 1 by done.
      rewrite load_draft_lookup. destruct (chunks s !! i); [done|].
      cbv zeta. apply decide_ext. rewrite Z2Nat.id by done. intuition lia.
    + rewrite (seqZ_nil 1 total) by lia. simpl.
      destruct (chunks s !! i); [done|]. by rewrite decide_False by lia.
Qed.

Lemma draft_loading_witness :
  let dk := Disk {["DRAFT_a.bin"%string := ["q"; "r"; "000"; "000"; "s"]%byte]} None in
  let s := Session ∅ None None 0 in
  chunks (on_payload 2 dk s
            (Object (Some 2) (Some 3) (Some "a.bin"%string) (Some "dHU="%string)) 1)
  = <[2 := "dHU="%string]>
      (load_draft 2 ["q"; "r"; "000"; "000"; "s"]%byte (seqZ 1 3) ∅).
Proof.
  intros dk s.
  apply (draft_loading 2 dk s 2 3 "a.bin" "dHU=" 1
           ["q"; "r"; "000"; "000"; "s"]%byte); reflexivity.
Defined.

(** C7, the claim as stated fails: the file has 2148 bytes, so its last part
    has 100.  A draft holds part 1 and a single byte after it.  Loading takes
    that byte for part 2, and the session completes on the first envelope with
    a restored file of 2049 bytes. *)
Lemma short_final_region_counterexample :
  let file := replicate 2048 "a"%byte ++ replicate 100 "b"%byte in
  let draft := replicate 2048 "a"%byte ++ ["b"%byte] in
  let dk := Disk {["DRAFT_a.bin"%string := draft]} None in
  let envelopes := generation_thread 2048 "a.bin" file None in
  length <$> last (get_file_chunks 2048 file) = Some 100%nat
  ∧ length (stride 2048 draft 2) = 1%nat
  ∧ load_draft 2048 draft (seqZ 1 2) ∅ !! 2 = Some (b64encode ["b"%byte])
  ∧ length <$> restored_file
                 (main_scanner 2048 dk 0 (deliver [(0, 0)] (take 1 envelopes)))
                 "a.bin"
    = Some 2049%nat.
Proof. repeat split; by vm_compute. Qed.

(** The load of a draft over all of [range(1, total + 1)]. *)
Lemma load_draft_range_lookup (chunk_size : nat) (draft : bytes) (total : Z)
    (held : gmap Z string) (i : Z) :
  load_draft chunk_size draft (seqZ 1 total) held !! i =
  match held !! i with
  | Some base64_data => Some base64_data
  | None =>
      if decide (1 ≤ i ≤ total ∧ trusted (stride chunk_size draft i))
      then Some (b64encode (stride chunk_size draft i)) else None
  end.
Proof.
  unfold stride. destruct (decide (0 ≤ total)) as [Hpos|Hneg].
  - rewrite <- (Z2Nat.id total) at 1 by done.
    rewrite load_draft_lookup. destruct (held !! i); [done|].
    cbv zeta. apply decide_ext. rewrite Z2Nat.id by done. intuition lia.
  - rewrite (seqZ_nil 1 total) by lia. simpl.
    destruct (held !! i); [done|]. by rewrite decide_False by lia.
Qed.

Lemma load_draft_subseteq (chunk_size : nat) (draft : bytes) (total : Z)
    (held : gmap Z string) :
  held ⊆ load_draft chunk_size draft (seqZ 1 total) held.
Proof.
  apply map_subseteq_spec. intros i x Hi.
  by rewrite load_draft_range_lookup, Hi.
Qed.

Lemma saved_draft_stride (chunk_size : nat) (chunks : gmap Z string)
    (total i : Z) :
  (∀ i s, chunks !! i = Some s → is_Some (b64decode s)) →
  (∀ i s b, 1 ≤ i < total → chunks !! i = Some s → b64decode s = Some b →
            length b = chunk_size) →
  (length (draft_region chunk_size chunks total total) ≤ chunk_size)%nat →
  1 ≤ i ≤ total →
  stride chunk_size (output (write_draft chunk_size chunks total (seqZ 1 total))) i
  = draft_region chunk_size chunks total i.
Proof.
  intros Hdec Hfull Hlast Hi. unfold stride.
  rewrite write_draft_regions by done. simpl.
  rewrite (draft_split _ _ _ i) by lia.
  rewrite drop_app_length'.
  2:{ rewrite <- (Z2Nat.id (i - 1)) at 2 by lia.
      symmetry. apply regions_length; [done | done | lia | lia]. }
  destruct (decide (i = total)) as [->|Hne].
  - rewrite Z.sub_diag. simpl. rewrite app_nil_r. by apply take_ge.
  - apply take_app_length'. symmetry. apply draft_region_length; [done|done|lia].
Qed.

Lemma zeros_not_trusted n : ¬ trusted (zeros n).
Proof. intros [_ H]. apply H. by rewrite length_zeros. Qed.

(** Loading what [write_draft] wrote. *)
Lemma load_saved_draft (chunk_size : nat) (received : gmap Z bytes)
    (total : Z) :
  (∀ i b, received !! i = Some b →
     1 ≤ i ≤ total ∧ (i < total → length b = chunk_size)
     ∧ (length b ≤ chunk_size)%nat) →
  let draft := output (write_draft chunk_size (b64encode <$> received) total
                         (seqZ 1 total)) in
  ∀ i, load_draft chunk_size draft (seqZ 1 total) ∅ !! i
       = match received !! i with
         | Some b => if decide (trusted b) then Some (b64encode b) else None
         | None => None
         end.
Proof.
  intros Hreceived draft i.
  set (chunks := b64encode <$> received).
  assert (Hdec : ∀ i s, chunks !! i = Some s → is_Some (b64decode s)).
  { intros j s. unfold chunks. rewrite lookup_fmap.
    destruct (received !! j); [|done]. intros [= <-].
    rewrite b64decode_b64encode. eauto. }
  assert (Hfull : ∀ i s b, 1 ≤ i < total → chunks !! i = Some s →
                    b64decode s = Some b → length b = chunk_size).
  { intros j s b Hj. unfold chunks. rewrite lookup_fmap.
    destruct (received !! j) as [b'|] eqn:Hb'; [|done]. intros [= <-].
    rewrite b64decode_b64encode. intros [= <-].
    destruct (Hreceived j b' Hb') as (_ & Hlen & _). apply Hlen. lia. }
  assert (Hregion : ∀ j, draft_region chunk_size chunks total j
                         = match received !! j with
                           | Some b => b
                           | None => if bool_decide (j ≠ total)
                                     then zeros chunk_size else []
                           end).
  { intros j. unfold draft_region, chunks. rewrite lookup_fmap.
    destruct (received !! j); simpl; [|done].
    by rewrite b64decode_b64encode. }
  assert (Hlast : (length (draft_region chunk_size chunks total total)
                   ≤ chunk_size)%nat).
  { rewrite Hregion. destruct (received !! total) as [b|] eqn:Hb.
    - by destruct (Hreceived total b Hb) as (_ & _ & ?).
    - rewrite bool_decide_eq_false_2 by (intros ?; done). simpl. lia. }
  rewrite load_draft_range_lookup, lookup_empty.
  destruct (decide (1 ≤ i ≤ total)) as [Hi|Hi].
  - unfold draft. fold chunks.
    rewrite saved_draft_stride by done. rewrite Hregion.
    destruct (received !! i) as [b|].
    + apply decide_ext. intuition.
    + rewrite decide_False; [done|]. intros [_ Ht].
      case_bool_decide; [by apply zeros_not_trusted in Ht | by destruct Ht].
  - rewrite decide_False by (by intros [? _]).
    destruct (received !! i) as [b|] eqn:Hb; [|done].
    by destruct (Hreceived i b Hb) as (? & _).
Qed.

Lemma size_part_range (total : Z) : size (part_range total) = Z.to_nat total.
Proof.
  unfold part_range. rewrite size_list_to_set by apply NoDup_seqZ.
  apply length_seqZ.
Qed.

(** ** Duplicates and delivery order *)

Lemma on_payload_twice chunk_size dk s e now1 now2 :
  on_payload chunk_size dk (on_payload chunk_size dk s (payload_of e) now1)
    (payload_of e) now2
  = on_payload chunk_size dk s (payload_of e) now1.
Proof.
  unfold payload_of. simpl.
  destruct (chunks s !! env_p e) eqn:Hp.
  { by rewrite Hp. }
  destruct (total_parts s); simpl; by rewrite lookup_insert_eq.
Qed.

Lemma collect_notin (es : list envelope) (k : Z) :
  k ∉ env_p <$> es → collect es !! k = None.
Proof.
  intros Hk. apply not_elem_of_list_to_map_1.
  by rewrite <- list_fmap_compose.
Qed.

(** Storing envelopes of distinct part numbers one after the other gives the
    dictionary of the envelopes. *)
Lemma foldl_store_collect (es : list envelope) (held : gmap Z string) :
  NoDup (env_p <$> es) → foldl store held es = collect es ∪ held.
Proof.
  revert held. induction es as [|e es IH]; intros held Hnd; simpl.
  { unfold collect. simpl. by rewrite (left_id_L ∅ (∪)). }
  rewrite fmap_cons in Hnd. apply NoDup_cons in Hnd as [Hnotin Hnd].
  rewrite IH by done. unfold store at 1, collect at 2. simpl. fold (collect es).
  rewrite <- insert_union_l. by rewrite insert_union_r by by apply collect_notin.
Qed.

Lemma collect_Permutation (es es' : list envelope) :
  NoDup (env_p <$> es) → es ≡ₚ es' → collect es = collect es'.
Proof.
  intros Hnd Hperm. unfold collect. apply list_to_map_proper.
  - by rewrite <- list_fmap_compose.
  - by apply fmap_Permutation.
Qed.

(** Completion does not look at the time of the last part. *)
Lemma check_completion_complete dk s total :
  total_parts s = Some total →
  Z.of_nat (size (chunks s)) = total →
  check_completion dk s
  = check_completion dk (Session (chunks s) (Some total) (output_filename s) 0)
  ∧ ∃ dk', check_completion dk s = Completed dk'
           ∨ check_completion dk s = WriteFailed dk'.
Proof.
  intros Ht Hsize. unfold check_completion. simpl. rewrite Ht.
  rewrite bool_decide_eq_true_2 by done.
  destruct (write_restored (chunks s) (seqZ 1 total)); eauto.
Qed.

Section Delivery.
Variables (chunk_size : nat) (dk : disk) (total : Z) (name : string).
Hypothesis no_draft : binary_files dk !! draft_name name = None.

Lemma round_accepts (s : session) (e : envelope) (now now' : Z) :
  this_session total name s →
  env_t e = total → env_f e = name →
  chunks s !! env_p e = None →
  Z.of_nat (size (chunks s)) < total →
  now - last_part_found_time s ≤ SCAN_TIMEOUT_SECONDS →
  round chunk_size dk s now (Got (of_envelope e) now')
  = check_completion dk
      (Session (store (chunks s) e) (Some total) (Some name) now').
Proof using no_draft.
  intros Hs Ht Hf Hp Hsize Hnow. unfold round.
  assert (timed_out s now = false) as ->.
  { apply not_true_iff_false. intros (? & _ & _ & ?)%timed_out_spec. lia. }
  unfold of_envelope, payload_of. simpl. rewrite Hp, Ht, Hf.
  destruct Hs as [-> | [-> ->]]; [|done].
  by rewrite no_draft.
Qed.

Lemma main_loop_accepts (es : list envelope) (clock : list (Z * Z))
    (s : session) :
  this_session total name s →
  Forall (λ e, env_t e = total ∧ env_f e = name) es →
  NoDup (env_p <$> es) →
  (∀ e, e ∈ es → chunks s !! env_p e = None) →
  Z.of_nat (size (chunks s)) + Z.of_nat (length es) = total →
  es ≠ [] →
  length clock = length es →
  timely (last_part_found_time s) clock →
  main_loop chunk_size dk s (deliver clock es)
  = check_completion dk
      (Session (foldl store (chunks s) es) (Some total) (Some name) 0).
Proof using no_draft.
  revert clock s. induction es as [|e es IH]; intros clock s; [done|].
  intros Hs Hes Hnd Hfresh Hsize _ Hlen Htimely.
  destruct clock as [|[now now'] clock]; [done|].
  apply Forall_cons in Hes as [[Ht Hf] Hes].
  rewrite fmap_cons in Hnd. apply NoDup_cons in Hnd as [Hnotin Hnd].
  destruct Htimely as [Hnow Htimely].
  assert (Hp : chunks s !! env_p e = None) by (apply Hfresh; left).
  simpl in Hsize.
  cbn [deliver zip_with main_loop fst snd foldl].
  rewrite round_accepts by (done || lia).
  set (s1 := Session (store (chunks s) e) (Some total) (Some name) now').
  assert (Hsize1 : size (chunks s1) = S (size (chunks s)))
    by by apply map_size_insert_None.
  destruct es as [|e2 es].
  - (* the last envelope completes the session *)
    destruct (check_completion_complete dk s1 total)
      as [Heq [dk' [Hc | Hc]]]; [done | simpl in *; lia | |];
      rewrite Hc; by rewrite Hc in Heq.
  - rewrite (check_completion_incomplete dk s1 total)
      by (done || simpl in *; lia).
    apply IH; try done.
    + right. done.
    + intros e' He'. simpl. unfold store.
      rewrite lookup_insert_ne; [apply Hfresh; by right|].
      intros Heq. apply Hnotin. rewrite Heq. by apply list_elem_of_fmap_2.
    + simpl in *. lia.
    + simpl in Hlen |- *. lia.
Qed.
End Delivery.

Lemma collect_size (es : list envelope) :
  NoDup (env_p <$> es) → size (collect es) = length es.
Proof.
  intros Hnd. unfold collect. rewrite map_size_list_to_map.
  - by rewrite length_fmap.
  - by rewrite <- list_fmap_compose.
Qed.

Lemma collect_lookup_elem (es : list envelope) (e : envelope) :
  NoDup (env_p <$> es) → e ∈ es → collect es !! env_p e = Some (env_d e).
Proof.
  intros Hnd He. unfold collect. apply elem_of_list_to_map_1.
  - by rewrite <- list_fmap_compose.
  - by apply (list_elem_of_fmap_2 (λ e, (env_p e, env_d e))).
Qed.

Lemma draft_name_not_restored name :
  draft_name name ≠ restored_name (Some name).
Proof. done. Qed.

(** A complete envelope set of one session, delivered in any order and
    without a timeout to a scanner that finds no draft, completes the
    session on the dictionary of the set. *)
Lemma complete_set_outcome (chunk_size : nat) (dk : disk) (start total : Z)
    (name : string) (es es' : list envelope) (clock : list (Z * Z)) :
  binary_files dk !! draft_name name = None →
  1 ≤ total →
  env_p <$> es ≡ₚ seqZ 1 total →
  Forall (λ e, env_t e = total ∧ env_f e = name) es →
  es' ≡ₚ es →
  length clock = length es →
  timely start clock →
  Z.of_nat (size (collect es)) = total
  ∧ main_scanner chunk_size dk start (deliver clock es')
    = check_completion dk (Session (collect es) (Some total) (Some name) 0).
Proof.
  intros Hnodraft Htotal Hparts Hes Hperm Hlen Htimely.
  assert (Hnd : NoDup (env_p <$> es)) by (rewrite Hparts; apply NoDup_seqZ).
  assert (Hnd' : NoDup (env_p <$> es')) by by rewrite Hperm.
  assert (Hlength : Z.of_nat (length es) = total).
  { rewrite <- (length_fmap env_p), Hparts, length_seqZ. lia. }
  split; [by rewrite collect_size|].
  unfold main_scanner.
  rewrite (main_loop_accepts chunk_size dk total name Hnodraft es' clock).
  - simpl. rewrite foldl_store_collect by done.
    rewrite (right_id_L ∅ (∪)). by rewrite (collect_Permutation es' es).
  - by left.
  - by rewrite Hperm.
  - done.
  - intros e _. apply lookup_empty.
  - simpl. rewrite map_size_empty, Hperm. lia.
  - intros ->. apply Permutation_nil_l in Hperm. subst es. simpl in *. lia.
  - by rewrite Hperm.
  - done.
Qed.

Lemma check_completion_restored dk held total name file :
  Z.of_nat (size held) = total →
  write_restored held (seqZ 1 total) = Done file →
  restored_file (check_completion dk (Session held (Some total) (Some name) 0))
    name = Some file.
Proof.
  intros Hsize Hfile. unfold check_completion. simpl.
  rewrite bool_decide_eq_true_2 by done. rewrite Hfile. simpl.
  rewrite lookup_delete_ne by apply draft_name_not_restored.
  apply lookup_insert_eq.
Qed.

(** End to end: the envelopes of a full broadcast of a non-empty file,
    delivered in any order and without a timeout to a scanner that finds no
    draft, are restored to the file. *)
Lemma broadcast_is_restored (chunk_size : nat) (dk : disk) (start : Z)
    (name : string) (file : bytes) (es' : list envelope)
    (clock : list (Z * Z)) :
  (0 < chunk_size)%nat →
  file ≠ [] →
  binary_files dk !! draft_name name = None →
  es' ≡ₚ generation_thread chunk_size name file None →
  length clock = length es' →
  timely start clock →
  restored_file (main_scanner chunk_size dk start (deliver clock es')) name
  = Some file.
Proof.
  intros Hcs Hfile Hnodraft Hperm Hlen Htimely.
  set (es := generation_thread chunk_size name file None) in *.
  set (total := ceil_div (Z.of_nat (length file)) (Z.of_nat chunk_size)).
  assert (Hparts : env_p <$> es = seqZ 1 total).
  { unfold es, generation_thread.
    rewrite broadcast_parts, get_file_chunks_length by done.
    apply filter_all, Forall_forall. intros; apply skipped_None. }
  assert (Htotal : 1 ≤ total).
  { assert ((total - 1) * Z.of_nat chunk_size < Z.of_nat (length file)
            ≤ total * Z.of_nat chunk_size) by (by apply ceil_div_spec; [lia|]).
    destruct file; [done|]. simpl in *. nia. }
  destruct (complete_set_outcome chunk_size dk start total name es es' clock)
    as [Hsize ->]; try done.
  - by rewrite Hparts.
  - apply Forall_forall.
    by intros e (i & chunk & _ & ->)%generation_thread_full_elem.
  - by rewrite <- Hperm.
  - apply check_completion_restored; [done|].
    unfold total. rewrite <- get_file_chunks_length by done.
    rewrite (write_restored_parts _ (get_file_chunks chunk_size file)).
    + by rewrite get_file_chunks_concat.
    + intros i chunk Hi. by apply collect_broadcast_lookup.
Qed.

(** A draft that [write_draft] made of payloads of the envelopes, as
    [save_draft_and_exit] does, agrees with them. *)
Lemma saved_draft_agrees (chunk_size : nat) (dk : disk) (total : Z)
    (name : string) (es : list envelope) (received : gmap Z bytes) :
  (∀ i b, received !! i = Some b →
     1 ≤ i ≤ total ∧ (i < total → length b = chunk_size)
     ∧ (length b ≤ chunk_size)%nat) →
  b64encode <$> received ⊆ collect es →
  binary_files dk !! draft_name name
  = Some (output (write_draft chunk_size (b64encode <$> received) total
                    (seqZ 1 total))) →
  draft_agrees chunk_size dk total name es.
Proof.
  intros Hreceived Hsub Hdraft draft Hd. rewrite Hdraft in Hd.
  injection Hd as <-. apply map_subseteq_spec. intros i x Hx.
  pose proof (load_saved_draft chunk_size received total Hreceived i) as Hload.
  cbv zeta in Hload. rewrite Hload in Hx.
  destruct (received !! i) as [b|] eqn:Hb; [|done].
  case_decide; [|done]. injection Hx as <-.
  eapply lookup_weaken; [|exact Hsub]. by rewrite lookup_fmap, Hb.
Qed.

(** An envelope of the set, taken by a session in progress: its part is held
    afterwards, nothing held is lost, and the session is still in progress or
    holds exactly the dictionary of the set. *)
Lemma accept_agreeing (chunk_size : nat) (dk : disk) (total : Z)
    (name : string) (es : list envelope) (s : session) (e : envelope)
    (now' : Z) :
  NoDup (env_p <$> es) →
  Z.of_nat (size (collect es)) = total →
  Forall (λ e, env_t e = total ∧ env_f e = name) es →
  draft_agrees chunk_size dk total name es →
  in_progress total name es s →
  e ∈ es →
  let s1 := on_payload chunk_size dk s (payload_of e) now' in
  is_Some (chunks s1 !! env_p e)
  ∧ chunks s ⊆ chunks s1
  ∧ (in_progress total name es s1
     ∨ (total_parts s1 = Some total ∧ output_filename s1 = Some name
        ∧ chunks s1 = collect es)).
Proof.
  intros Hnd Hsize Hes Hagree Hs He s1.
  assert (Hd : collect es !! env_p e = Some (env_d e))
    by by apply collect_lookup_elem.
  rewrite Forall_forall in Hes. destruct (Hes e He) as [Ht Hf].
  assert (Hstore : ∀ held : gmap Z string, held ⊆ collect es →
            (<[env_p e := env_d e]> held ⊆ collect es
             ∧ Z.of_nat (size (<[env_p e := env_d e]> held)) < total)
            ∨ <[env_p e := env_d e]> held = collect es).
  { intros held Hsub.
    assert (Hsub' : <[env_p e := env_d e]> held ⊆ collect es)
      by by apply insert_subseteq_l.
    destruct (decide (Z.of_nat (size (<[env_p e := env_d e]> held)) < total));
      [by left|].
    right. apply map_subseteq_size_eq; [done|]. lia. }
  unfold s1, payload_of. simpl.
  destruct (chunks s !! env_p e) as [x|] eqn:Hp.
  { rewrite Hp. split; [eauto|]. split; [done|]. by left. }
  destruct Hs as [[Hnone Hempty] | (Hbound & Hname & Hsub & Hlt)].
  - rewrite Hnone, Ht, Hf. simpl.
    set (loaded := match binary_files dk !! draft_name name with
                   | Some draft =>
                       load_draft chunk_size draft (seqZ 1 total) (chunks s)
                   | None => chunks s
                   end).
    assert (Hloaded : loaded ⊆ collect es).
    { unfold loaded. rewrite Hempty.
      destruct (binary_files dk !! draft_name name) eqn:Hdraft;
        [by apply Hagree | apply map_empty_subseteq]. }
    split; [rewrite lookup_insert_eq; eauto|].
    split; [rewrite Hempty; apply map_empty_subseteq|].
    destruct (Hstore loaded Hloaded) as [[Hsub' Hlt']|Heq];
      [left; right; done | right; done].
  - rewrite Hbound. simpl.
    split; [rewrite lookup_insert_eq; eauto|].
    split; [by apply insert_subseteq|].
    destruct (Hstore (chunks s) Hsub) as [[Hsub' Hlt']|Heq];
      [left; right; done | right; done].
Qed.

(** A session in progress that is delivered envelopes of the set, among them
    one for every part it lacks, completes on the dictionary of the set
    unless a round times out. *)
Lemma main_loop_agreeing (chunk_size : nat) (dk : disk) (total : Z)
    (name : string) (es rest : list envelope) (clock : list (Z * Z))
    (s : session) :
  1 ≤ total →
  NoDup (env_p <$> es) →
  Z.of_nat (size (collect es)) = total →
  Forall (λ e, env_t e = total ∧ env_f e = name) es →
  draft_agrees chunk_size dk total name es →
  in_progress total name es s →
  (∀ e, e ∈ rest → e ∈ es) →
  (∀ k, 1 ≤ k ≤ total → is_Some (chunks s !! k) ∨ k ∈ env_p <$> rest) →
  length clock = length rest →
  main_loop chunk_size dk s (deliver clock rest)
  = check_completion dk (Session (collect es) (Some total) (Some name) 0)
  ∨ ∃ s' dk',
      main_loop chunk_size dk s (deliver clock rest)
      = Interrupted ScanTimeout s' dk'.
Proof.
  intros Htotal Hnd Hsize Hes Hagree.
  revert clock s. induction rest as [|e rest IH];
    intros clock s Hs Hrest Hcover Hlen.
  - exfalso. destruct Hs as [[_ Hempty] | (_ & _ & _ & Hlt)].
    + destruct (Hcover 1) as [[x Hx]|Hin]; [lia | |by apply elem_of_nil in Hin].
      by rewrite Hempty, lookup_empty in Hx.
    + assert (Hsub : part_range total ⊆ dom (chunks s)).
      { intros k Hk%elem_of_part_range.
        destruct (Hcover k Hk) as [Hheld|Hin];
          [by apply elem_of_dom | by apply elem_of_nil in Hin]. }
      apply subseteq_size in Hsub.
      rewrite size_part_range, size_dom in Hsub. lia.
  - destruct clock as [|[now now'] clock]; [done|].
    cbn [deliver zip_with main_loop fst snd]. unfold round.
    destruct (timed_out s now); [right; eauto|].
    unfold of_envelope.
    destruct (accept_agreeing chunk_size dk total name es s e now')
      as (Hheld & Hkeeps & Hnext); try done; [apply Hrest; left|].
    cbv zeta in Hheld, Hkeeps, Hnext.
    set (s1 := on_payload chunk_size dk s (payload_of e) now') in *.
    destruct Hnext as [Hs1 | (Hbound & Hname & Hall)].
    + assert (check_completion dk s1 = Continue s1) as ->.
      { destruct Hs1 as [[Hnone _] | (Hbound & _ & _ & Hlt)].
        - unfold check_completion. by rewrite Hnone.
        - by apply (check_completion_incomplete dk s1 total). }
      apply IH; [done | | | simpl in Hlen; lia].
      * intros e' He'. apply Hrest. by right.
      * intros k Hk. destruct (Hcover k Hk) as [[x Hx]|Hin].
        -- left. exists x. by eapply lookup_weaken.
        -- rewrite fmap_cons in Hin.
           apply elem_of_cons in Hin as [-> | Hin]; [by left | by right].
    + left.
      destruct (check_completion_complete dk s1 total)
        as [Heq [dk' Hstop]]; [done | by rewrite Hall |].
      rewrite Hall, Hname in Heq. rewrite <- Heq.
      by destruct Hstop as [-> | ->].
Qed.

Lemma on_payload_last chunk_size dk s payload now :
  last_part_found_time (on_payload chunk_size dk s payload now)
  = last_part_found_time s
  ∨ last_part_found_time (on_payload chunk_size dk s payload now) = now.
Proof.
  destruct payload as [|[part_num|] t f [d|]]; simpl; try by left.
  destruct (chunks s !! part_num); [by left|].
  destruct (total_parts s); [by right|].
  destruct t; [|by left]. destruct f; [by right | by left].
Qed.

(** A prompt delivery meets no timeout. *)
Lemma main_loop_prompt (chunk_size : nat) (dk : disk) (start : Z)
    (all clock : list (Z * Z)) (rest : list envelope) (s s' : session)
    (dk' : disk) :
  last_part_found_time s = start ∨ last_part_found_time s ∈ all.*2 →
  Forall (λ c, c ∈ all
               ∧ c.1 - start ≤ SCAN_TIMEOUT_SECONDS
               ∧ Forall (λ c', c.1 - c'.2 ≤ SCAN_TIMEOUT_SECONDS) all)
         clock →
  main_loop chunk_size dk s (deliver clock rest) ≠ Interrupted ScanTimeout s' dk'.
Proof.
  intros Hlast Hclock. revert s rest Hlast.
  induction Hclock as [|[now now'] clock (Hin & Hstart & Hall) _ IH];
    intros s rest Hlast; [done|].
  destruct rest as [|e rest]; [done|].
  cbn [deliver zip_with main_loop fst snd]. unfold round.
  assert (timed_out s now = false) as ->.
  { apply not_true_iff_false. intros (? & _ & _ & Hlate)%timed_out_spec.
    destruct Hlast as [Hlast | Hlast]; [simpl in Hstart; lia|].
    apply list_elem_of_fmap in Hlast as (c' & Hc' & Hin').
    rewrite Forall_forall in Hall. specialize (Hall c' Hin').
    simpl in Hall. lia. }
  unfold of_envelope.
  destruct (check_completion dk _) as [s1| | | |] eqn:Hcheck; try done.
  - apply check_completion_Continue in Hcheck as ->. apply IH.
    destruct (on_payload_last chunk_size dk s (payload_of e) now')
      as [-> | ->]; [done|].
    right. by apply (list_elem_of_fmap_2 snd _ (now, now')).
  - by apply check_completion_not_interrupted in Hcheck.
Qed.

(** C3 (as amended).  Feeding the same envelope twice leaves the session as
    feeding it once does.  When the draft of the file, if there is one,
    agrees with the envelopes, every permutation of a complete envelope set
    of one session ends the scan with the outcome that the set alone
    determines, unless a round times out: the restored file is the same for
    every order of delivery.  No round times out when the delivery is
    prompt, or when there is no draft and no timeout test comes late after
    the acceptance before it: the scan then does end with that outcome. *)
Theorem assembly_ignores_order (chunk_size : nat) (dk : disk) (start total : Z)
    (name : string) (es es' : list envelope) (clock : list (Z * Z)) :
  1 ≤ total →
  env_p <$> es ≡ₚ seqZ 1 total →
  Forall (λ e, env_t e = total ∧ env_f e = name) es →
  es' ≡ₚ es →
  length clock = length es →
  draft_agrees chunk_size dk total name es →
  let run := main_scanner chunk_size dk start (deliver clock es') in
  let final :=
    check_completion dk (Session (collect es) (Some total) (Some name) 0) in
  (∀ dk0 s e now1 now2,
     on_payload chunk_size dk0
       (on_payload chunk_size dk0 s (payload_of e) now1) (payload_of e) now2
     = on_payload chunk_size dk0 s (payload_of e) now1)
  ∧ (run = final ∨ ∃ s dk', run = Interrupted ScanTimeout s dk')
  ∧ (prompt start clock → run = final)
  ∧ (binary_files dk !! draft_name name = None → timely start clock →
     run = final)
  ∧ (∃ dk', final = Completed dk' ∨ final = WriteFailed dk')
  ∧ (∀ file, write_restored (collect es) (seqZ 1 total) = Done file →
             restored_file final name = Some file).
Proof.
  intros Htotal Hparts Hes Hperm Hlen Hagree run final.
  assert (Hnd : NoDup (env_p <$> es)) by (rewrite Hparts; apply NoDup_seqZ).
  assert (Hsize : Z.of_nat (size (collect es)) = total).
  { rewrite collect_size by done.
    rewrite <- (length_fmap env_p), Hparts, length_seqZ. lia. }
  assert (Hrun : run = final ∨ ∃ s dk', run = Interrupted ScanTimeout s dk').
  { apply (main_loop_agreeing chunk_size dk total name es es' clock); try done.
    - by left.
    - intros e He. by rewrite <- Hperm.
    - intros k Hk. right. rewrite Hperm, Hparts. apply elem_of_seqZ. lia.
    - by rewrite Hperm. }
  split; [intros; apply on_payload_twice|].
  split; [done|]. split; [|split; [|split]].
  - intros Hprompt. destruct Hrun as [Hrun | (s & dk' & Hrun)]; [done|].
    exfalso. revert Hrun.
    apply (main_loop_prompt chunk_size dk start clock clock); [by left|].
    unfold prompt in Hprompt. rewrite Forall_forall in Hprompt |- *.
    intros c Hc. split; [done | by apply Hprompt].
  - intros Hnodraft Htimely.
    by destruct (complete_set_outcome chunk_size dk start total name es es'
                   clock) as [_ Hfinal].
  - by destruct (check_completion_complete dk
                   (Session (collect es) (Some total) (Some name) 0) total)
      as [_ ?].
  - intros file Hfile. by apply check_completion_restored.
Qed.

Lemma assembly_ignores_order_witness :
  let e1 := Envelope 1 2 "a.bin" (b64encode ["q"; "r"]%byte) in
  let e2 := Envelope 2 2 "a.bin" (b64encode ["s"]%byte) in
  let dk := Disk {["DRAFT_a.bin"%string := ["q"; "r"]%byte]} None in
  let run := main_scanner 2 dk 0 (deliver [(0, 0); (3, 4)] [e2; e1]) in
  let final :=
    check_completion dk
      (Session (collect [e1; e2]) (Some 2) (Some "a.bin"%string) 0) in
  draft_agrees 2 dk 2 "a.bin" [e1; e2]
  ∧ run = final
  ∧ restored_file run "a.bin" = Some ["q"; "r"; "s"]%byte.
Proof.
  intros e1 e2 dk run final.
  assert (Hagree : draft_agrees 2 dk 2 "a.bin" [e1; e2]).
  { apply (saved_draft_agrees 2 dk 2 "a.bin" [e1; e2]
             {[1 := ["q"; "r"]%byte]}).
    - intros i b [<- <-]%lookup_singleton_Some.
      split; [lia|]. split; [reflexivity | simpl; lia].
    - rewrite map_fmap_singleton. apply map_subseteq_spec.
      intros i x [<- <-]%lookup_singleton_Some. reflexivity.
    - reflexivity. }
  split; [exact Hagree|]. split; [|vm_compute; reflexivity].
  destruct (assembly_ignores_order 2 dk 0 2 "a.bin" [e1; e2] [e2; e1]
              [(0, 0); (3, 4)]) as (_ & _ & Hrun & _).
  - lia.
  - reflexivity.
  - repeat constructor.
  - apply perm_swap.
  - reflexivity.
  - exact Hagree.
  - apply Hrun. unfold prompt, SCAN_TIMEOUT_SECONDS.
    repeat (apply Forall_cons_2 || apply Forall_nil_2 || split); simpl; lia.
Defined.

(** C3, the claim as stated fails: with a draft on disk whose two parts are
    not the payloads of the envelopes, the same two envelopes restore
    different files in the two orders of delivery, and each restored file
    holds bytes of the draft that no envelope carries. *)
Lemma resumed_draft_order_counterexample :
  let draft := replicate 2048 "x"%byte ++ ["y"%byte] in
  let dk := Disk {["DRAFT_a.bin"%string := draft]} None in
  let e1 := Envelope 1 2 "a.bin" (b64encode (replicate 2048 "a"%byte)) in
  let e2 := Envelope 2 2 "a.bin" (b64encode ["b"%byte]) in
  let clock := [(0, 0); (0, 0)] in
  [e2; e1] ≡ₚ [e1; e2]
  ∧ restored_file (main_scanner 2048 dk 0 (deliver clock [e1; e2])) "a.bin"
    = Some (replicate 2048 "a"%byte ++ ["y"%byte])
  ∧ restored_file (main_scanner 2048 dk 0 (deliver clock [e2; e1])) "a.bin"
    = Some (replicate 2048 "x"%byte ++ ["b"%byte])
  ∧ restored_file (main_scanner 2048 dk 0 (deliver clock [e1; e2])) "a.bin"
    ≠ restored_file (main_scanner 2048 dk 0 (deliver clock [e2; e1])) "a.bin".
Proof.
  intros draft dk e1 e2 clock.
  assert (H1 : restored_file (main_scanner 2048 dk 0 (deliver clock [e1; e2]))
                 "a.bin" = Some (replicate 2048 "a"%byte ++ ["y"%byte]))
    by by vm_compute.
  assert (H2 : restored_file (main_scanner 2048 dk 0 (deliver clock [e2; e1]))
                 "a.bin" = Some (replicate 2048 "x"%byte ++ ["b"%byte]))
    by by vm_compute.
  split; [apply perm_swap|]. split; [done|]. split; [done|].
  rewrite H1, H2. intros [=].
Qed.

(** * Further properties of the code *)

(** ** The chunk source and the transmission loop *)

Lemma read_loop_shape (chunk_size rounds : nat) (rest : bytes) :
  Forall (λ chunk, chunk ≠ [] ∧ (length chunk ≤ chunk_size)%nat)
         (read_loop rounds chunk_size rest).
Proof.
  revert rest. induction rounds as [|rounds IH]; intros rest; simpl; [done|].
  destruct (take chunk_size rest) as [|b chunk] eqn:Htake; [done|].
  constructor; [|apply IH]. split; [done|].
  rewrite <- Htake, length_take. lia.
Qed.

(** X1. [get_file_chunks] never yields an empty chunk nor one longer than
    the chunk size, and it yields no chunk at all exactly when the file is
    empty or the chunk size is 0. *)
Theorem get_file_chunks_shape (chunk_size : nat) (file : bytes) :
  Forall (λ chunk, chunk ≠ [] ∧ (length chunk ≤ chunk_size)%nat)
         (get_file_chunks chunk_size file)
  ∧ (get_file_chunks chunk_size file = [] ↔ file = [] ∨ chunk_size = 0%nat).
Proof.
  split; [apply read_loop_shape|]. unfold get_file_chunks.
  destruct file as [|b file]; [by split; [left|]|].
  destruct chunk_size as [|n]; simpl.
  - by split; [right|].
  - split; [done | by intros [?|?]].
Qed.

Lemma broadcast_falsy remediation_parts total file_name k (parts : list bytes) :
  truthy remediation_parts = false →
  broadcast remediation_parts total file_name k parts
  = broadcast None total file_name k parts.
Proof.
  intros Hfalsy. revert k. induction parts as [|chunk parts IH]; intros k;
    [done|].
  simpl. unfold skipped. rewrite Hfalsy. simpl. by rewrite IH.
Qed.

Lemma filter_nil_iff {A} (P : A → Prop) `{∀ x, Decision (P x)} (l : list A) :
  filter P l = [] ↔ ∀ x, x ∈ l → ¬ P x.
Proof.
  split.
  - intros Hnil x Hx HP. apply (not_elem_of_nil x). rewrite <- Hnil.
    by apply list_elem_of_filter.
  - intros Hnone. induction l as [|x l IH]; [done|].
    rewrite filter_cons_False by (apply Hnone; left).
    apply IH. intros y Hy. apply Hnone. by right.
Qed.

(** X2. An empty selector set reaches [generation_thread] as "send
    everything"; it is [main] that refuses it.  With [main]'s guard, a
    remediation run renders nothing exactly when no number of the missing
    list is a part of the file. *)
Theorem empty_selector (chunk_size : nat) (file_name : string) (file : bytes)
    (missing : list Z) :
  (0 < chunk_size)%nat →
  let total := ceil_div (Z.of_nat (length file)) (Z.of_nat chunk_size) in
  generation_thread chunk_size file_name file (Some ∅)
  = generation_thread chunk_size file_name file None
  ∧ sender_main chunk_size file_name file (Some []) = []
  ∧ (sender_main chunk_size file_name file (Some missing) = []
     ↔ ∀ k, k ∈ missing → ¬ 1 ≤ k ≤ total).
Proof.
  intros Hcs total. split; [by apply broadcast_falsy|]. split; [done|].
  assert (Hiff : sender_main chunk_size file_name file (Some missing) = []
                 ↔ env_p <$> sender_main chunk_size file_name file (Some missing)
                   = []).
  { split; [by intros ->|apply fmap_nil_inv]. }
  rewrite Hiff, sender_main_parts, filter_nil_iff by done. fold total.
  split.
  - intros Hnone k Hk Hrange. apply (Hnone k); [|done].
    apply elem_of_seqZ. lia.
  - intros Hnone k Hk%elem_of_seqZ Hin. apply (Hnone k Hin). lia.
Qed.

Lemma empty_selector_witness :
  sender_main 2 "a.bin" ["q"; "r"; "s"]%byte (Some [7]) = []
  ↔ ∀ k, k ∈ [7] → ¬ 1 ≤ k ≤ ceil_div 3 2.
Proof.
  apply (empty_selector 2 "a.bin" ["q"; "r"; "s"]%byte [7]). lia.
Defined.

Lemma broadcast_sublist remediation_parts total file_name k
    (parts : list bytes) :
  broadcast remediation_parts total file_name k parts
  `sublist_of` broadcast None total file_name k parts.
Proof.
  revert k. induction parts as [|chunk parts IH]; intros k; simpl; [done|].
  destruct (skipped remediation_parts k).
  - by apply sublist_cons.
  - by apply sublist_skip.
Qed.

(** X3. Whatever the selector, the envelopes of a run are envelopes of the
    full broadcast, in the same order: a replayed part keeps its number, the
    total of the whole file and its payload. *)
Theorem replay_is_part_of_broadcast (chunk_size : nat) (file_name : string)
    (file : bytes) (remediate : option (list Z)) :
  sender_main chunk_size file_name file remediate
  `sublist_of` generation_thread chunk_size file_name file None.
Proof.
  unfold sender_main. destruct remediate as [missing|]; [|done].
  case_bool_decide; [apply sublist_nil_l | apply broadcast_sublist].
Qed.

(** X4. The number of symbols a run puts on the image queue is at most the
    total the window displays; it is that total in full mode, and in
    remediation mode when every number of the missing list is a part of the
    file. *)
Theorem symbols_and_display_total (chunk_size : nat) (file_name : string)
    (file : bytes) (remediate : option (list Z)) :
  (0 < chunk_size)%nat →
  let total := ceil_div (Z.of_nat (length file)) (Z.of_nat chunk_size) in
  let symbols :=
    Z.of_nat (length (sender_main chunk_size file_name file remediate)) in
  symbols ≤ display_total chunk_size file remediate
  ∧ (remediate = None → symbols = total)
  ∧ (∀ missing, remediate = Some missing → missing ≠ [] →
       (∀ k, k ∈ missing → 1 ≤ k ≤ total) →
       symbols = display_total chunk_size file remediate).
Proof.
  intros Hcs total symbols.
  assert (Htotal : 0 ≤ total).
  { assert ((total - 1) * Z.of_nat chunk_size < Z.of_nat (length file)
            ≤ total * Z.of_nat chunk_size) by (by apply ceil_div_spec; [lia|]).
    nia. }
  assert (Hfull : Z.of_nat (length (generation_thread chunk_size file_name
                                      file None)) = total).
  { rewrite <- (length_fmap env_p). unfold generation_thread.
    rewrite broadcast_parts, get_file_chunks_length by done. fold total.
    rewrite filter_all by (apply Forall_forall; intros; apply skipped_None).
    rewrite length_seqZ. lia. }
  destruct remediate as [missing|].
  2:{ unfold symbols, display_total, sender_main. fold total.
      split; [lia|]. split; [done | by intros ? [=]]. }
  assert (Hsym : symbols
                 = Z.of_nat (length (filter (λ k, k ∈ missing) (seqZ 1 total)))).
  { unfold symbols. rewrite <- (length_fmap env_p).
    by rewrite sender_main_parts by done. }
  assert (Hnd : NoDup (filter (λ k, k ∈ missing) (seqZ 1 total)))
    by apply NoDup_filter, NoDup_seqZ.
  assert (Hsize : length (filter (λ k, k ∈ missing) (seqZ 1 total))
                  = size (list_to_set (filter (λ k, k ∈ missing) (seqZ 1 total))
                            : gset Z))
    by by rewrite size_list_to_set.
  unfold display_total. fold total. cbn [truthy].
  split; [|split; [done|]].
  - case_bool_decide as Hempty; simpl.
    + rewrite Hsym. rewrite filter_none; [simpl; lia|].
      intros k Hk. assert (k ∈ (list_to_set missing : gset Z))
        by by apply elem_of_list_to_set.
      rewrite Hempty in H. by apply not_elem_of_empty in H.
    + rewrite Hsym, Hsize. apply inj_le, subseteq_size.
      intros k. rewrite !elem_of_list_to_set, list_elem_of_filter. by intros [? _].
  - intros ? [= <-] Hne Hrange.
    rewrite bool_decide_eq_false_2; simpl.
    + rewrite Hsym, Hsize. do 2 f_equal. apply set_eq. intros k.
      rewrite !elem_of_list_to_set, list_elem_of_filter, elem_of_seqZ.
      split; [by intros [? _]|]. intros Hk. split; [done|].
      specialize (Hrange k Hk). lia.
    + destruct missing as [|k missing]; [done|]. intros Hempty.
      assert (k ∈ (list_to_set (k :: missing) : gset Z))
        by (apply elem_of_list_to_set; left).
      rewrite Hempty in H. by apply not_elem_of_empty in H.
Qed.

Lemma symbols_and_display_total_witness :
  Z.of_nat (length (sender_main 2 "a.bin" ["q"; "r"; "s"]%byte (Some [2; 7])))
  ≤ display_total 2 ["q"; "r"; "s"]%byte (Some [2; 7]).
Proof.
  apply (symbols_and_display_total 2 "a.bin" ["q"; "r"; "s"]%byte (Some [2; 7])).
  lia.
Defined.

(** ** The presenter *)





(** ** What a run of the assembler keeps *)

Lemma insert_fresh_subseteq (held held' : gmap Z string) (i : Z) (x : string) :
  held !! i = None → held ⊆ held' → held ⊆ <[i:=x]> held'.
Proof.
  intros Hi Hsub. apply map_subseteq_spec. intros j y Hj.
  rewrite lookup_insert_ne by congruence.
  by eapply lookup_weaken.
Qed.

(** One entry: parts are kept, a bound total and the name with it stay, and
    the time of the last part moves only with a new part. *)
Lemma on_payload_keeps chunk_size dk s payload now :
  let s' := on_payload chunk_size dk s payload now in
  chunks s ⊆ chunks s'
  ∧ (∀ t, total_parts s = Some t →
          total_parts s' = Some t ∧ output_filename s' = output_filename s)
  ∧ (chunks s' = chunks s → last_part_found_time s' = last_part_found_time s).
Proof.
  destruct payload as [|[part_num|] t f [d|]]; simpl;
    try (split; [done|]; split; [by intros|done]).
  destruct (chunks s !! part_num) eqn:Hp;
    [split; [done|]; split; [by intros|done]|].
  assert (Hfresh : ∀ held : gmap Z string, <[part_num:=d]> held ≠ chunks s).
  { intros held Heq.
    assert (<[part_num:=d]> held !! part_num = Some d) by apply lookup_insert_eq.
    rewrite Heq in H. congruence. }
  destruct (total_parts s) as [total|] eqn:Ht; simpl.
  - split; [by apply insert_fresh_subseteq|]. split; [by intros ? [= <-]|].
    intros Heq. by apply Hfresh in Heq.
  - destruct t as [total|]; [|split; [done|]; split; [by intros|done]].
    destruct f as [name|]; simpl; [|split; [done|]; split; [by intros|done]].
    split; [|split; [done|]].
    + apply insert_fresh_subseteq; [done|].
      destruct (binary_files dk !! draft_name name);
        [apply load_draft_subseteq | done].
    + intros Heq. by apply Hfresh in Heq.
Qed.

Lemma round_session chunk_size dk s now ev s' :
  session_of (round chunk_size dk s now ev) = Some s' →
  s' = s ∨ ∃ payload now', s' = on_payload chunk_size dk s payload now'.
Proof.
  unfold round. destruct (timed_out s now); [by intros [= <-]; left|].
  destruct ev as [|[| | |payload] now'|]; simpl.
  - intros [= <-]. by left.
  - intros [= <-]. by left.
  - intros H. left. unfold check_completion in H.
    destruct (total_parts s); [|by injection H].
    case_bool_decide; [|by injection H].
    by destruct (write_restored _ _).
  - intros [= <-]. by left.
  - intros H. right. exists payload, now'.
    unfold check_completion in H.
    destruct (total_parts (on_payload _ _ _ _ _)); [|by injection H].
    case_bool_decide; [|by injection H].
    by destruct (write_restored _ _).
  - intros [= <-]. by left.
Qed.

Lemma main_loop_keeps chunk_size dk s rounds s' :
  session_of (main_loop chunk_size dk s rounds) = Some s' →
  chunks s ⊆ chunks s'
  ∧ (∀ t, total_parts s = Some t →
          total_parts s' = Some t ∧ output_filename s' = output_filename s)
  ∧ (chunks s' = chunks s → last_part_found_time s' = last_part_found_time s).
Proof.
  revert s. induction rounds as [|[now ev] rounds IH]; intros s; simpl.
  { intros [= <-]. split; [done|]. split; [by intros|done]. }
  intros Hfinal.
  assert (Hstep : ∀ s1, session_of (round chunk_size dk s now ev) = Some s1 →
            chunks s ⊆ chunks s1
            ∧ (∀ t, total_parts s = Some t →
                 total_parts s1 = Some t ∧ output_filename s1 = output_filename s)
            ∧ (chunks s1 = chunks s →
               last_part_found_time s1 = last_part_found_time s)).
  { intros s1 [->|(payload & now' & ->)]%round_session.
    - split; [done|]. split; [by intros|done].
    - apply on_payload_keeps. }
  destruct (round chunk_size dk s now ev) as [s1| | | |] eqn:Hround;
    try (by apply Hstep).
  destruct (Hstep s1 eq_refl) as (Hsub1 & Hbound1 & Htime1).
  destruct (IH s1 Hfinal) as (Hsub & Hbound & Htime).
  split; [by etrans|]. split.
  - intros t Ht. destruct (Hbound1 t Ht) as [Ht1 Hn1].
    destruct (Hbound t Ht1) as [Ht' Hn']. split; [done | congruence].
  - intros Heq.
    assert (chunks s1 = chunks s).
    { apply (anti_symm (⊆)); [by rewrite <- Heq | done]. }
    rewrite Htime by congruence. by apply Htime1.
Qed.


(** X7. The first total bound is final, and so is the file name of that
    moment, bound or not: no later envelope changes either, whatever total
    or name it carries. *)
Theorem binding_is_final (chunk_size : nat) (dk : disk) (s s' : session)
    (rounds : list (Z * poll)) (total : Z) :
  total_parts s = Some total →
  session_of (main_loop chunk_size dk s rounds) = Some s' →
  total_parts s' = Some total ∧ output_filename s' = output_filename s.
Proof.
  intros Ht (_ & Hbound & _)%main_loop_keeps. by apply Hbound.
Qed.

(** X8. The time of the last new part moves only when a new part comes in:
    a run that leaves the session's parts as they were leaves that time as it
    was, so entries that add nothing never postpone the timeout. *)
Theorem timer_moves_with_parts (chunk_size : nat) (dk : disk) (s s' : session)
    (rounds : list (Z * poll)) :
  session_of (main_loop chunk_size dk s rounds) = Some s' →
  chunks s' = chunks s →
  last_part_found_time s' = last_part_found_time s.
Proof. intros (_ & _ & Htime)%main_loop_keeps. done. Qed.


Lemma binding_is_final_witness :
  let s := Session {[1 := "QQ=="%string]} (Some 3) (Some "a.bin"%string) 0 in
  let other := Envelope 2 9 "b.bin" "Qg==" in
  let s' := Session {[1 := "QQ=="%string; 2 := "Qg=="%string]} (Some 3)
              (Some "a.bin"%string) 1 in
  total_parts s' = Some 3 ∧ output_filename s' = output_filename s.
Proof.
  intros s other s'.
  apply (binding_is_final 2048 (Disk ∅ None) s s'
           [(1, Got (of_envelope other) 1)] 3).
  - reflexivity.
  - vm_compute. reflexivity.
Defined.

Lemma timer_moves_with_parts_witness :
  let s := Session {[1 := "QQ=="%string]} (Some 3) (Some "a.bin"%string) 0 in
  let again := Envelope 1 3 "a.bin" "Qg==" in
  last_part_found_time s = last_part_found_time s.
Proof.
  intros s again.
  apply (timer_moves_with_parts 2048 (Disk ∅ None) s s
           [(1, Got (of_envelope again) 1); (2, Got NotJson 2)]).
  - vm_compute. reflexivity.
  - reflexivity.
Defined.

(** ** Before the first part *)

Lemma foreign_round chunk_size dk s now r :
  total_parts s = None → foreign (now, r) →
  round chunk_size dk s now r = Continue s.
Proof.
  intros Ht Hr. unfold round, timed_out. rewrite Ht.
  assert (Hcheck : check_completion dk s = Continue s)
    by (unfold check_completion; by rewrite Ht).
  destruct r as [|[| | |payload] now'|]; simpl in Hr; try done.
  assert (on_payload chunk_size dk s payload now' = s) as ->; [|done].
  destruct payload as [|[part_num|] t f [base64_data|]]; try done.
  simpl. destruct (chunks s !! part_num); [done|]. rewrite Ht.
  by destruct Hr as [? | [? | ->]].
Qed.

(** X9. Before the first part there is no timeout: whatever the clock
    reads, rounds that bring no entry, or an entry that [json.loads] rejects
    with [JSONDecodeError], that is JSON but not an object, or that is an
    object without a part number, a payload or a total, leave the scanner
    waiting in its initial state.  An entry on which [json.loads] raises
    another exception is not ignored: the exception leaves the scanner. *)
Theorem waits_for_first_part (chunk_size : nat) (dk : disk) (start : Z)
    (rounds : list (Z * poll)) :
  (Forall foreign rounds →
   main_scanner chunk_size dk start rounds
   = Continue (Session ∅ None None start))
  ∧ (∀ s now now',
       main_scanner chunk_size dk start rounds = Continue s →
       timed_out s now = false →
       main_scanner chunk_size dk start (rounds ++ [(now, Got LoadsRaised now')])
       = Crashed s).
Proof.
  unfold main_scanner. split.
  - assert (Hgen : ∀ s, total_parts s = None → Forall foreign rounds →
              main_loop chunk_size dk s rounds = Continue s).
    { intros s Hs Hrounds.
      induction Hrounds as [|[now r] rounds Hr _ IH]; [done|].
      simpl. by rewrite foreign_round. }
    by apply Hgen.
  - intros s now now'. generalize (Session ∅ None None start).
    induction rounds as [|[now0 ev] rounds IH]; intros s0.
    + intros [= ->] Hnow. simpl. unfold round. by rewrite Hnow.
    + simpl. destruct (round chunk_size dk s0 now0 ev); [apply IH | done..].
Qed.

Lemma waits_for_first_part_witness :
  let rounds :=
    [(100, Empty); (200, Got NotJson 200);
     (300, Got (Json (Object (Some 1) None None (Some "QQ=="%string))) 300)] in
  main_scanner 2048 (Disk ∅ None) 0 rounds = Continue (Session ∅ None None 0)
  ∧ main_scanner 2048 (Disk ∅ None) 0 (rounds ++ [(400, Got LoadsRaised 400)])
    = Crashed (Session ∅ None None 0).
Proof.
  intros rounds.
  destruct (waits_for_first_part 2048 (Disk ∅ None) 0 rounds)
    as [Hwaits Hcrash].
  assert (Hrun : main_scanner 2048 (Disk ∅ None) 0 rounds
                 = Continue (Session ∅ None None 0)).
  { apply Hwaits.
    repeat apply Forall_cons_2; [exact I | exact I | | apply Forall_nil_2].
    right. right. reflexivity. }
  split; [exact Hrun|]. apply Hcrash; [exact Hrun | reflexivity].
Defined.

(** ** A draft saved and loaded again *)

(** X10. A draft that is saved and loaded again gives back the parts that
    were received, except those without content: for parts of 1..totalParts
    with chunkSize bytes each (the last one at most chunkSize), loading the
    saved draft into an empty session yields exactly the received parts that
    are not empty and not all null bytes, each with the text it had; a part
    of null bytes only is not recovered. *)
Theorem draft_save_load (chunk_size : nat) (received : gmap Z bytes)
    (total : Z) :
  (∀ i b, received !! i = Some b →
     1 ≤ i ≤ total ∧ (i < total → length b = chunk_size)
     ∧ (length b ≤ chunk_size)%nat) →
  let draft := output (write_draft chunk_size (b64encode <$> received) total
                         (seqZ 1 total)) in
  ∀ i, load_draft chunk_size draft (seqZ 1 total) ∅ !! i
       = match received !! i with
         | Some b => if decide (trusted b) then Some (b64encode b) else None
         | None => None
         end.
Proof. apply load_saved_draft. Qed.

Lemma draft_save_load_witness :
  let received : gmap Z bytes :=
    {[1 := ["q"; "r"]%byte; 2 := ["000"; "000"]%byte; 4 := ["s"]%byte]} in
  load_draft 2 (output (write_draft 2 (b64encode <$> received) 4 (seqZ 1 4)))
    (seqZ 1 4) ∅ !! 2
  = match received !! 2 with
    | Some b => if decide (trusted b) then Some (b64encode b) else None
    | None => None
    end.
Proof.
  intros received.
  apply (draft_save_load 2 received 4).
  intros i b Hb.
  apply lookup_insert_Some in Hb as [[<- <-]|[_ Hb]];
    [split; [lia|]; split; [reflexivity | simpl; lia]|].
  apply lookup_insert_Some in Hb as [[<- <-]|[_ Hb]];
    [split; [lia|]; split; [reflexivity | simpl; lia]|].
  apply lookup_singleton_Some in Hb as [<- <-].
  split; [lia|]. split; [lia | simpl; lia].
Defined.

(** ** The final write *)

Lemma write_restored_Done (chunks : gmap Z string) (parts : list Z) :
  (∀ i, i ∈ parts → ∃ d b, chunks !! i = Some d ∧ b64decode d = Some b) →
  ∃ out, write_restored chunks parts = Done out.
Proof.
  induction parts as [|i parts IH]; intros Hparts; simpl; [eauto|].
  destruct (Hparts i) as (d & b & Hd & Hb); [left|].
  rewrite Hd. simpl. rewrite Hb.
  destruct IH as [out ->]; [|simpl; eauto].
  intros j Hj. apply Hparts. by right.
Qed.


(** A count of [total] keys, all in [1..total], is all of [1..total]. *)
Lemma complete_by_count (held : gmap Z string) (total : Z) :
  dom held ⊆ part_range total →
  Z.of_nat (size held) = total →
  dom held = part_range total.
Proof.
  intros Hsub Hsize. apply set_subseteq_size_eq; [done|].
  rewrite size_part_range, size_dom. lia.
Qed.

Lemma check_completion_conforming dk s total dk' :
  conforming total s → check_completion dk s ≠ WriteFailed dk'.
Proof.
  intros (Htotal & Hdom & Hdec). unfold check_completion.
  destruct (total_parts s) as [t|] eqn:Ht; [|done].
  rewrite (Htotal t eq_refl). case_bool_decide as Hsize; [|done].
  destruct (write_restored_Done (chunks s) (seqZ 1 total)) as [out ->]; [|done].
  intros i Hi.
  assert (Hin : i ∈ dom (chunks s)).
  { rewrite (complete_by_count _ total) by done.
    apply elem_of_part_range. apply elem_of_seqZ in Hi. lia. }
  apply elem_of_dom in Hin as [d Hd].
  destruct (Hdec i d Hd) as [b Hb]. eauto.
Qed.

Lemma on_payload_conforming chunk_size dk s total payload now now' :
  conforming total s →
  well_formed total (now, Got (Json payload) now') →
  conforming total (on_payload chunk_size dk s payload now').
Proof.
  intros Hs Hwf. destruct payload as [|[part_num|] t f [d|]]; try done.
  simpl in Hwf. destruct Hwf as (Hp & Ht & Hd).
  specialize (Hp part_num eq_refl). specialize (Hd d eq_refl).
  simpl. destruct (chunks s !! part_num) eqn:Hheld; [done|].
  destruct Hs as (Htotal & Hdom & Hdec).
  assert (Hstore : ∀ held : gmap Z string,
            dom held ⊆ part_range total →
            (∀ i x, held !! i = Some x → is_Some (b64decode x)) →
            dom (<[part_num:=d]> held) ⊆ part_range total
            ∧ (∀ i x, <[part_num:=d]> held !! i = Some x →
                      is_Some (b64decode x))).
  { intros held Hsub Hall. split.
    - rewrite dom_insert. apply union_least; [|done].
      apply singleton_subseteq_l. by apply elem_of_part_range.
    - intros i x [[_ <-]|[_ Hi]]%lookup_insert_Some; [done | by eapply Hall]. }
  destruct (total_parts s) as [bound|] eqn:Hbound.
  { split; [done|]. by apply Hstore. }
  destruct t as [t|]; [|by repeat split; try done; rewrite Hbound].
  specialize (Ht t eq_refl). subst t.
  destruct f as [name|]; [|by split; [by intros ? [= <-]|]].
  split; [by intros ? [= <-]|]. apply Hstore.
  - destruct (binary_files dk !! draft_name name) as [draft|]; [|done].
    intros i [x Hx]%elem_of_dom. rewrite load_draft_range_lookup in Hx.
    destruct (chunks s !! i) eqn:Hi.
    + apply Hdom, elem_of_dom. eauto.
    + case_decide as Hin; [|done]. apply elem_of_part_range. tauto.
  - destruct (binary_files dk !! draft_name name) as [draft|]; [|done].
    intros i x Hx. rewrite load_draft_range_lookup in Hx.
    destruct (chunks s !! i) eqn:Hi.
    + injection Hx as <-. by eapply Hdec.
    + case_decide; [|done]. injection Hx as <-.
      rewrite b64decode_b64encode. eauto.
Qed.

Lemma check_completion_session dk s s' :
  session_of (check_completion dk s) = Some s' →
  check_completion dk s = Continue s ∧ s' = s.
Proof.
  unfold check_completion. destruct (total_parts s); [|by intros [= <-]].
  case_bool_decide; [|by intros [= <-]].
  by destruct (write_restored _ _).
Qed.

Lemma main_loop_conforming chunk_size dk total rounds s s' :
  Forall (well_formed total) rounds →
  conforming total s →
  session_of (main_loop chunk_size dk s rounds) = Some s' →
  conforming total s'.
Proof.
  intros Hrounds. revert s.
  induction Hrounds as [|[now ev] rounds Hwf _ IH]; intros s Hs;
    [by intros [= <-]|].
  simpl. unfold round. destruct (timed_out s now); [by intros [= <-]|].
  destruct ev as [|[| | |payload] now'|]; try (by intros [= <-]).
  - by apply IH.
  - destruct (check_completion dk s) as [s1| | | |] eqn:Hcheck; try done.
    + apply check_completion_Continue in Hcheck as ->. by apply IH.
    + by apply check_completion_not_interrupted in Hcheck.
    + assert (Hc : session_of (check_completion dk s) = Some s0)
        by by rewrite Hcheck.
      apply check_completion_session in Hc as [Hc _]. congruence.
  - assert (Hs1 : conforming total (on_payload chunk_size dk s payload now'))
      by by eapply on_payload_conforming.
    destruct (check_completion dk _) as [s1| | | |] eqn:Hcheck; try done.
    + apply check_completion_Continue in Hcheck as ->. by apply IH.
    + by apply check_completion_not_interrupted in Hcheck.
    + assert (Hc : session_of (check_completion dk
                      (on_payload chunk_size dk s payload now')) = Some s0)
        by by rewrite Hcheck.
      apply check_completion_session in Hc as [Hc _]. congruence.
Qed.

(** With a full count a conforming session holds every part, and the loop
    of the final write goes through. *)
Lemma conforming_complete (s : session) (total : Z) :
  conforming total s →
  Z.of_nat (size (chunks s)) = total →
  dom (chunks s) = part_range total
  ∧ ∃ out, write_restored (chunks s) (seqZ 1 total) = Done out.
Proof.
  intros (_ & Hdom & Hdec) Hsize.
  assert (Hall : dom (chunks s) = part_range total)
    by by apply complete_by_count.
  split; [done|]. apply write_restored_Done. intros i Hi.
  assert (Hin : i ∈ dom (chunks s)).
  { rewrite Hall. apply elem_of_part_range. apply elem_of_seqZ in Hi. lia. }
  apply elem_of_dom in Hin as [d Hd].
  destruct (Hdec i d Hd) as [b Hb]. eauto.
Qed.

(** X11. With conforming entries the count test of the completion check is
    sound.  When every object entry of the rounds carries a part number of
    1..total, the total [total] and a payload that decodes, the session the
    scan has reached holds only parts of 1..total with payloads that decode
    (parts loaded from a draft included); and when the next such entry
    brings the count to [total], every part of 1..total is held and the loop
    of the final write, [f_out.write(base64.b64decode(chunks[i]))] for i in
    1..total, meets no missing key and no text that does not decode. *)
Theorem conforming_count_is_complete (chunk_size : nat) (dk : disk)
    (start total : Z) (rounds : list (Z * poll)) (s : session) :
  Forall (well_formed total) rounds →
  session_of (main_scanner chunk_size dk start rounds) = Some s →
  conforming total s
  ∧ ∀ payload now now',
      well_formed total (now, Got (Json payload) now') →
      let s1 := on_payload chunk_size dk s payload now' in
      conforming total s1
      ∧ (Z.of_nat (size (chunks s1)) = total →
         dom (chunks s1) = part_range total
         ∧ ∃ out, write_restored (chunks s1) (seqZ 1 total) = Done out).
Proof.
  intros Hrounds Hrun.
  assert (Hs : conforming total s).
  { apply (main_loop_conforming chunk_size dk total rounds
             (Session ∅ None None start)); [done | | done].
    split; [done|]. split; [|done]. simpl. by rewrite dom_empty_L. }
  split; [done|]. intros payload now now' Hwf s1.
  assert (Hs1 : conforming total s1) by by eapply on_payload_conforming.
  split; [done|]. by apply conforming_complete.
Qed.

Lemma conforming_count_is_complete_witness :
  let e1 := Envelope 1 2 "a.bin" "cQ==" in
  let e2 := Envelope 2 2 "a.bin" "cg==" in
  let s := Session {[1 := "cQ=="%string]} (Some 2) (Some "a.bin"%string) 0 in
  let s1 := on_payload 2 (Disk ∅ None) s (payload_of e2) 1 in
  main_scanner 2 (Disk ∅ None) 0 [(0, Got (of_envelope e1) 0)] = Continue s
  ∧ dom (chunks s1) = part_range 2
  ∧ ∃ out, write_restored (chunks s1) (seqZ 1 2) = Done out.
Proof.
  intros e1 e2 s s1.
  assert (Hwf : ∀ e, e = e1 ∨ e = e2 →
            well_formed 2 (0, Got (of_envelope e) 0)).
  { intros e He. split; [|split].
    - intros k [= <-]. destruct He as [-> | ->]; simpl; lia.
    - intros t [= <-]. by destruct He as [-> | ->].
    - intros d [= <-]. destruct He as [-> | ->]; vm_compute; eauto. }
  assert (Hrun : main_scanner 2 (Disk ∅ None) 0 [(0, Got (of_envelope e1) 0)]
                 = Continue s) by (vm_compute; reflexivity).
  split; [exact Hrun|].
  destruct (conforming_count_is_complete 2 (Disk ∅ None) 0 2
              [(0, Got (of_envelope e1) 0)] s) as [_ Hnext].
  - apply Forall_cons_2; [apply Hwf; by left | apply Forall_nil_2].
  - by rewrite Hrun.
  - destruct (Hnext (payload_of e2) 0 1) as [_ Hfull]; [apply Hwf; by right|].
    apply Hfull. vm_compute. reflexivity.
Defined.

(** ** A second round for the missing parts *)






Section FullBroadcast.
Variables (chunk_size : nat) (name : string) (file : bytes).
Hypothesis chunk_size_pos : (0 < chunk_size)%nat.

Let total := ceil_div (Z.of_nat (length file)) (Z.of_nat chunk_size).





End FullBroadcast.





(** ** A delivery that stops short *)




